(** * The Asaphus box game: boxes, players and [play]

    A shallow embedding of [asaphus.cpp] and the proofs of its specified
    properties.

    - The C++ type [double] is IEEE 754 binary64.  It is modelled by
      [spec_float] with the operations of [SpecFloat] at precision 53 and
      maximal exponent 1024, which round to nearest, ties to even.  Equality
      of doubles below is equality of representations: there is one NaN, and
      [+0] and [-0] differ.
    - [std::pow] belongs to the C library and not to the program: built as
      the source says, with [g++ --std=c++14] and no optimisation,
      [std::pow(mean, 2)] is a call of the library's [pow], which does not
      promise the correctly rounded result and can be one unit in the last
      place away from the rounded product [mean * mean].  The function that
      maps [x] to [std::pow(x, 2)] is therefore a parameter, [std_pow2], of
      the whole development.  Two facts about it are assumed, and only by
      the results that use them: it returns the square whenever the square
      is a double ([std_pow2_exact], which holds of every implementation
      whose error stays below one unit in the last place), and on a double
      other than NaN it returns a double that is neither negative nor NaN
      ([std_pow2_sign]).  The correctly rounded product [rounded_square] is
      one function that meets both; the last part of the file runs the
      model with it.
    - A [std::deque<double>] is a list whose head is [front()] and whose
      last element is [back()].
    - Calling [front()] or [back()] on an empty deque, or dereferencing the
      end iterator of the vector of boxes, is undefined behaviour and is
      modelled by [None].
    - A [std::vector<std::unique_ptr<Box>>] is a list of boxes; the mutation
      of the selected box through its pointer is the update of the list at
      its index.
    - Tokens are [uint32_t] values, here natural numbers of type [N]; no
      result below depends on the bound [2^32] unless it says so.
    - The loop counter [int i] of [play] is a natural number: vectors of
      [2^31] or more tokens, on which the counter overflows, are outside the
      model.  The line printed to [std::cout] is not modelled. *)

From Stdlib Require Import ZArith NArith Lia Bool Sorted.
From Stdlib Require Import Floats.PrimFloat Floats.SpecFloat Floats.FloatOps.
From stdpp Require Import base option list.

Local Open Scope Z_scope.

(** ** Doubles *)

Module Double.

Definition double := spec_float.

Definition add (x y : double) : double := SFadd prec emax x y.
Definition mul (x y : double) : double := SFmul prec emax x y.
Definition div (x y : double) : double := SFdiv prec emax x y.

(** [x < y] on doubles; false as soon as one side is NaN. *)
Definition ltb (x y : double) : bool := SFltb x y.
Definition leb (x y : double) : bool := SFleb x y.

(** Conversion of an integer to double, as done by
    [static_cast<double>(uint32_t)] and by the implicit conversion of
    [size_t] in [sum / size()]. *)
Definition of_Z (z : Z) : double := binary_normalize prec emax z 0 false.
Definition of_N (n : N) : double := of_Z (Z.of_N n).
Definition of_nat (n : nat) : double := of_Z (Z.of_nat n).

(** The correctly rounded square [x * x]. *)
Definition rounded_square (x : double) : double := mul x x.

(** The literals of the source; [0.1], [0.2] and [0.3] are not binary64
    values and denote the nearest ones, written here in hexadecimal. *)
Definition zero : double := S754_zero false.
Definition d0_1 : double := Eval vm_compute in Prim2SF 0x1.999999999999ap-4%float.
Definition d0_2 : double := Eval vm_compute in Prim2SF 0x1.999999999999ap-3%float.
Definition d0_3 : double := Eval vm_compute in Prim2SF 0x1.3333333333333p-2%float.
Definition d13 : double := Eval vm_compute in Prim2SF 13%float.
Definition d25 : double := Eval vm_compute in Prim2SF 25%float.
Definition d155 : double := Eval vm_compute in Prim2SF 155%float.
Definition d366_25 : double := Eval vm_compute in Prim2SF 366.25%float.

Definition is_nan (x : double) : bool :=
  match x with S754_nan => true | _ => false end.

End Double.

Import Double.

(** ** Well-formed doubles *)

Abbreviation fexp := (SpecFloat.fexp prec emax).

(** Sign bit clear and not NaN: [+0], a positive finite double or [+inf]. *)
Definition nonneg (x : double) : bool :=
  match x with
  | S754_zero false | S754_infinity false | S754_finite false _ _ => true
  | _ => false
  end.

(** A canonical binary64 representation. *)
Definition valid (x : double) : bool := valid_binary prec emax x.

Definition wf (x : double) : Prop := nonneg x = true /\ valid x = true.

(** ** The values of doubles *)

(** The double [x] is finite and its value is the rational [n / d], for
    [0 < d]: with [x = m * 2^e], this is [m * 2^e * d = n]. *)
Definition value_is (x : double) (n d : Z) : bool :=
  match x with
  | S754_zero _ => n =? 0
  | S754_finite s m e =>
    if 0 <=? e then cond_Zopp s (Zpos m) * 2 ^ e * d =? n
    else cond_Zopp s (Zpos m) * d =? n * 2 ^ (- e)
  | _ => false
  end.

(** The square of [x] is a double: the product [x * x] is formed without
    rounding.  For a finite [x = m * 2^e] the correctly rounded product has
    the value [m^2 * 2^(2e)]; the squares of zeros and infinities and of NaN
    are fixed by the C standard. *)
Definition square_exact (x : double) : bool :=
  match x with
  | S754_finite _ m e =>
    match mul x x with
    | S754_finite _ m' e' =>
      let e0 := Z.min e' (2 * e) in
      Zpos m' * 2 ^ (e' - e0) =? Zpos m * Zpos m * 2 ^ (2 * e - e0)
    | _ => false
    end
  | _ => true
  end.

(** ** The C library *)

Local Unset Default Proof Using.

Section Model.

(** [std::pow(x, 2)] as a function of [x]. *)
Variable std_pow2 : double -> double.

(** Where the square of [x] is a double, [std::pow(x, 2)] is that double. *)
Hypothesis std_pow2_exact :
  forall x, square_exact x = true -> std_pow2 x = mul x x.

(** On a double other than NaN, [std::pow(x, 2)] is a double that is
    neither negative nor NaN. *)
Hypothesis std_pow2_sign :
  forall x, valid x = true -> is_nan x = false ->
            nonneg (std_pow2 x) = true /\ valid (std_pow2 x) = true.

(** ** Box *)

Record Box := mkBox {
  weight_ : double;
  absorbed_weights_ : list double
}.

(** [explicit Box(double initial_weight)] *)
Definition Box_new (initial_weight : double) : Box :=
  mkBox initial_weight [].

Definition makeGreenBox (initial_weight : double) : Box := Box_new initial_weight.
Definition makeBlueBox (initial_weight : double) : Box := Box_new initial_weight.

(** [Box::operator<] *)
Definition Box_lt (a b : Box) : bool := ltb (weight_ a) (weight_ b).

Definition getWeight (b : Box) : double := weight_ b.

(** [std::accumulate(begin, end, 0.0)] *)
Definition accumulate (l : list double) : double := fold_left add l zero.

Definition empty (d : list double) : bool :=
  match d with [] => true | _ :: _ => false end.
Definition front (d : list double) : option double := head d.
Definition back (d : list double) : option double := last d.

(** [Box::calculateScoreForGreenBox]: the score and the box afterwards. *)
Definition calculateScoreForGreenBox (b : Box) (weight : double) : double * Box :=
  let aw := absorbed_weights_ b ++ [weight] in
  let aw := if (3 <? length aw)%nat then tail aw else aw in
  let mean := div (accumulate aw) (of_nat (length aw)) in
  let score := std_pow2 mean in
  (score, mkBox (add (weight_ b) weight) aw).

(** Undefined behaviour aborts the computation. *)
Notation "'do' x <- m ; k" := (match m with Some x => k | None => None end)
  (at level 10, x pattern, m at level 100, k at level 200, only parsing).

(** The update of the buffer in [Box::calculateScoreForBlueBox]. *)
Definition blue_update (aw : list double) (weight : double) : option (list double) :=
  if negb (empty aw) then
    do f <- front aw;
    if ltb weight f then Some (weight :: aw)
    else
      do l <- back aw;
      if ltb l weight then Some (aw ++ [weight]) else Some aw
  else Some (aw ++ [weight]).

(** Cantor's pairing function as the source computes it. *)
Definition pairing (smallest largest : double) : double :=
  let sum := add smallest largest in
  add (div (mul sum (add sum (of_Z 1))) (of_Z 2)) largest.

(** [Box::calculateScoreForBlueBox] *)
Definition calculateScoreForBlueBox (b : Box) (weight : double) : option (double * Box) :=
  do aw <- blue_update (absorbed_weights_ b) weight;
  do smallest <- front aw;
  do largest <- back aw;
  let score := pairing smallest largest in
  Some (score, mkBox (add (weight_ b) weight) aw).

(** ** Player *)

Record Player := mkPlayer { score_ : double }.

Definition Player_new : Player := mkPlayer zero.
Definition getScore (p : Player) : double := score_ p.

(** [std::min_element] with the comparison [*a < *b], as the index of the
    element found: the scan keeps the first element and replaces it only by
    a later one that compares smaller.  On an empty vector it returns the
    end iterator, index [0 = length]. *)
Fixpoint min_element_from (rest : list Box) (i : nat) (smallest : nat) (sb : Box) : nat :=
  match rest with
  | [] => smallest
  | b :: rest' =>
    if Box_lt b sb then min_element_from rest' (S i) i b
    else min_element_from rest' (S i) smallest sb
  end.

Definition min_element (boxes : list Box) : nat :=
  match boxes with
  | [] => 0%nat
  | b :: rest => min_element_from rest 1 0 b
  end.

(** [Player::takeTurn]: the player and the boxes afterwards.  The token is a
    [uint32_t], a natural number below [2^32]. *)
Definition takeTurn (p : Player) (input_weight : N) (boxes : list Box)
  : option (Player * list Box) :=
  let index := min_element boxes in
  do min_box <- boxes !! index;
  if (index =? 0)%nat || (index =? 1)%nat then
    let '(s, b) := calculateScoreForGreenBox min_box (of_N input_weight) in
    Some (mkPlayer (add (score_ p) s), <[index := b]> boxes)
  else
    do (s, b) <- calculateScoreForBlueBox min_box (of_N input_weight);
    Some (mkPlayer (add (score_ p) s), <[index := b]> boxes).

(** ** The game *)

Record Game := mkGame {
  boxes : list Box;
  player_A : Player;
  player_B : Player
}.

Definition initial : Game :=
  mkGame [makeGreenBox zero; makeGreenBox d0_1; makeBlueBox d0_2; makeBlueBox d0_3]
         Player_new Player_new.

(** One iteration of the loop of [play], at index [i]. *)
Definition turn (i : nat) (w : N) (g : Game) : option Game :=
  if (i mod 2 =? 0)%nat then
    do (p, bs) <- takeTurn (player_A g) w (boxes g);
    Some (mkGame bs p (player_B g))
  else
    do (p, bs) <- takeTurn (player_B g) w (boxes g);
    Some (mkGame bs (player_A g) p).

Fixpoint play_loop (i : nat) (input_weights : list N) (g : Game) : option Game :=
  match input_weights with
  | [] => Some g
  | w :: ws => do g' <- turn i w g; play_loop (S i) ws g'
  end.

(** [play]; the line written to [std::cout] is not modelled. *)
Definition play (input_weights : list N) : option (double * double) :=
  do g <- play_loop 0 input_weights initial;
  Some (getScore (player_A g), getScore (player_B g)).

(** ** Runs of absorptions *)

(** Absorbing the weights [ws] one after the other with the green scoring:
    the scores in order, and the box afterwards. *)
Fixpoint green_run (b : Box) (ws : list double) : list double * Box :=
  match ws with
  | [] => ([], b)
  | w :: ws' =>
    let '(s, b') := calculateScoreForGreenBox b w in
    let '(ss, b'') := green_run b' ws' in
    (s :: ss, b'')
  end.

(** The same with the blue scoring. *)
Fixpoint blue_run (b : Box) (ws : list double) : option (list double * Box) :=
  match ws with
  | [] => Some ([], b)
  | w :: ws' =>
    do (s, b') <- calculateScoreForBlueBox b w;
    do (ss, b'') <- blue_run b' ws';
    Some (s :: ss, b'')
  end.

(** ** What the scores are compared with *)

(** [std::pow(mean, 2)] for the mean of [l] in double arithmetic: the sum
    from the left starting at [0.0], divided by the number of elements. *)
Definition square_of_mean (l : list double) : double :=
  std_pow2 (div (accumulate l) (of_nat (length l))).

(** The [n] last elements of [l]. *)
Definition most_recent (n : nat) (l : list double) : list double :=
  drop (length l - n) l.

Definition is_min (lo : double) (l : list double) : Prop :=
  In lo l /\ forall x, In x l -> leb lo x = true.

Definition is_max (hi : double) (l : list double) : Prop :=
  In hi l /\ forall x, In x l -> leb x hi = true.

Definition not_nan (l : list double) : Prop :=
  Forall (fun w => is_nan w = false) l.

(** The buffer of a blue box that has absorbed [prev]: its front is a
    smallest and its back a largest of the absorbed weights. *)
Definition blue_inv (prev aw : list double) : Prop :=
  exists lo hi, front aw = Some lo /\ back aw = Some hi /\
                is_min lo prev /\ is_max hi prev.

Definition weights_not_nan (bs : list Box) : Prop :=
  Forall (fun b => is_nan (weight_ b) = false) bs.

(** [i] is the first position of [bs] that holds a smallest weight. *)
Definition first_min (bs : list Box) (i : nat) : Prop :=
  exists bi, bs !! i = Some bi /\
    (forall j bj, bs !! j = Some bj -> leb (weight_ bi) (weight_ bj) = true) /\
    (forall j bj, (j < i)%nat -> bs !! j = Some bj ->
                  ltb (weight_ bi) (weight_ bj) = true).

(** ** Well-formed boxes and games *)

Definition Box_wf (b : Box) : Prop :=
  wf (weight_ b) /\ Forall wf (absorbed_weights_ b).

(** What holds of the game throughout [play]: four boxes, the green ones with
    at most three weights in their window, and no negative or NaN value. *)
Definition Boxes_wf (bs : list Box) : Prop :=
  length bs = 4%nat /\
  Forall Box_wf bs /\
  (forall i b, (i < 2)%nat -> bs !! i = Some b ->
               (length (absorbed_weights_ b) <= 3)%nat).

Definition Game_wf (g : Game) : Prop :=
  length (boxes g) = 4%nat /\
  Forall Box_wf (boxes g) /\
  (forall i b, (i < 2)%nat -> boxes g !! i = Some b ->
               (length (absorbed_weights_ b) <= 3)%nat) /\
  wf (score_ (player_A g)) /\ wf (score_ (player_B g)).

(** The result of [binary_round_aux], without the shift records. *)
Definition round_result (sx : bool) (m e : Z) : double :=
  match m with
  | Z0 => S754_zero sx
  | Zpos p => if e <=? emax - prec then S754_finite sx p e else S754_infinity sx
  | Zneg _ => S754_nan
  end.

(** ** Further notions *)

(** Strictly increasing from front to back. *)
Definition increasing (l : list double) : Prop :=
  StronglySorted (fun x y => ltb x y = true) l.

(** Cantor's pairing function on integers. *)
Definition cantor (a b : Z) : Z := (a + b) * (a + b + 1) / 2 + b.

Definition sumZ (l : list Z) : Z := fold_right Z.add 0 l.

(** The shape of the boxes during [play]: four boxes, at most three
    weights in the windows of boxes 0 and 1, strictly increasing buffers in
    the boxes after them. *)
Definition Game_shape (bs : list Box) : Prop :=
  length bs = 4%nat /\
  forall i b, bs !! i = Some b ->
    ((i < 2)%nat -> (length (absorbed_weights_ b) <= 3)%nat) /\
    ((2 <= i)%nat -> increasing (absorbed_weights_ b)).

(** The double that [Box::calculateScoreForGreenBox] passes to [std::pow]:
    the mean of the window once it holds [weight]. *)
Definition green_mean (b : Box) (weight : double) : double :=
  let aw := absorbed_weights_ b ++ [weight] in
  let aw := if (3 <? length aw)%nat then tail aw else aw in
  div (accumulate aw) (of_nat (length aw)).

(** The double that the next call of [takeTurn] passes to [std::pow], if
    there is one: the selected box is box 0 or box 1. *)
Definition turn_mean (w : N) (bs : list Box) : option double :=
  let index := min_element bs in
  match bs !! index with
  | Some b =>
    if (index =? 0)%nat || (index =? 1)%nat then Some (green_mean b (of_N w))
    else None
  | None => None
  end.

(** Every square that the loop of [play] asks for on [ws] is a double. *)
Fixpoint exact_run (i : nat) (ws : list N) (g : Game) : bool :=
  match ws with
  | [] => true
  | w :: ws' =>
    match turn_mean w (boxes g) with Some x => square_exact x | None => true end
    && match turn i w g with Some g' => exact_run (S i) ws' g' | None => true end
  end.

(** ** The order on doubles *)

Section Order.

Local Ltac cmp_cases :=
  repeat match goal with
  | |- context [Z.compare ?a ?b] => destruct (Z.compare_spec a b)
  | H : context [Z.compare ?a ?b] |- _ => destruct (Z.compare_spec a b)
  | |- context [Pos.compare_cont Eq ?a ?b] =>
      change (Pos.compare_cont Eq a b) with (Pos.compare a b);
      destruct (Pos.compare_spec a b)
  | H : context [Pos.compare_cont Eq ?a ?b] |- _ =>
      change (Pos.compare_cont Eq a b) with (Pos.compare a b) in H;
      destruct (Pos.compare_spec a b)
  end.

Local Ltac order_solve :=
  unfold ltb, leb, SFltb, SFleb, is_nan;
  repeat match goal with x : double |- _ => destruct x as [[]|[]| |[] ? ?] end;
  simpl; try congruence; try (intros; congruence);
  intros; cmp_cases; simpl in *; subst; try congruence; try lia.

Lemma ltb_irrefl x : ltb x x = false.
Proof. order_solve. Qed.

Lemma ltb_asym x y : ltb x y = true -> ltb y x = false.
Proof. order_solve. Qed.

Lemma ltb_leb x y : ltb x y = true -> leb x y = true.
Proof. order_solve. Qed.

Lemma leb_refl x : is_nan x = false -> leb x x = true.
Proof. order_solve. Qed.

Lemma leb_total x y :
  is_nan x = false -> is_nan y = false -> ltb y x = false -> leb x y = true.
Proof. order_solve. Qed.

Lemma leb_not_ltb x y : leb x y = true -> ltb y x = false.
Proof. order_solve. Qed.

Lemma leb_trans x y z : leb x y = true -> leb y z = true -> leb x z = true.
Proof. order_solve. Qed.

Lemma ltb_leb_trans x y z : ltb x y = true -> leb y z = true -> ltb x z = true.
Proof. order_solve. Qed.

Lemma leb_ltb_trans x y z : leb x y = true -> ltb y z = true -> ltb x z = true.
Proof. order_solve. Qed.

Lemma ltb_trans x y z : ltb x y = true -> ltb y z = true -> ltb x z = true.
Proof. order_solve. Qed.

End Order.

(** ** Rounding *)

Section Digits.

Lemma digits2_pos_size p : digits2_pos p = Pos.size p.
Proof. induction p; simpl; congruence. Qed.

Lemma Zdigits2_log2 m : 0 < m -> Zdigits2 m = Z.log2 m + 1.
Proof.
  destruct m as [|p|p]; try lia. intros _. simpl.
  rewrite digits2_pos_size. destruct p; simpl; lia.
Qed.

Lemma Zdigits2_nonneg m : 0 <= Zdigits2 m.
Proof. destruct m; simpl; lia. Qed.

Lemma Zdigits2_pos m : 0 < m -> 0 < Zdigits2 m.
Proof. destruct m; simpl; lia. Qed.

Lemma Zdigits2_0 : Zdigits2 0 = 0.
Proof. reflexivity. Qed.

Lemma Zdigits2_mono a b : 0 <= a <= b -> Zdigits2 a <= Zdigits2 b.
Proof.
  intros [Ha Hab]. destruct (Z.eq_dec a 0) as [->|Hne].
  - apply Zdigits2_nonneg.
  - rewrite !Zdigits2_log2 by lia.
    pose proof (Z.log2_le_mono a b Hab). lia.
Qed.

Lemma Zdigits2_bounds m : 0 < m -> 2 ^ (Zdigits2 m - 1) <= m < 2 ^ Zdigits2 m.
Proof.
  intros Hm. rewrite Zdigits2_log2 by lia.
  replace (Z.log2 m + 1 - 1) with (Z.log2 m) by lia.
  replace (Z.log2 m + 1) with (Z.succ (Z.log2 m)) by lia.
  apply Z.log2_spec. lia.
Qed.

Lemma Zdigits2_shift m n :
  0 < m -> 0 <= n -> 0 < m / 2 ^ n -> Zdigits2 (m / 2 ^ n) = Zdigits2 m - n.
Proof.
  intros Hm Hn Hq. rewrite !Zdigits2_log2 by lia.
  rewrite <- Z.shiftr_div_pow2 by lia. rewrite Z.log2_shiftr by lia.
  assert (n <= Z.log2 m); [|lia].
  destruct (Z.le_gt_cases n (Z.log2 m)) as [|Hlt]; [lia|].
  exfalso. pose proof (Z.log2_spec m Hm) as [_ Hub].
  assert (m < 2 ^ n).
  { eapply Z.lt_le_trans; [exact Hub|]. apply Z.pow_le_mono_r; lia. }
  rewrite Z.div_small in Hq; lia.
Qed.

Lemma Zdigits2_shift_ge m n : 0 <= m -> 0 <= n -> Zdigits2 m - n <= Zdigits2 (m / 2 ^ n).
Proof.
  intros Hm Hn. destruct (Z.eq_dec m 0) as [->|Hne].
  - rewrite Z.div_0_l by (apply Z.pow_nonzero; lia). simpl. lia.
  - destruct (Z.eq_dec (m / 2 ^ n) 0) as [Hz|Hnz].
    + rewrite Hz. simpl.
      apply Z.div_small_iff in Hz; [|apply Z.pow_nonzero; lia].
      destruct Hz as [[_ Hlt]|[_ Hle]]; [|lia].
      pose proof (Zdigits2_bounds m ltac:(lia)) as [Hlb _].
      assert (Zdigits2 m - 1 < n); [|lia].
      apply (Z.pow_lt_mono_r_iff 2); lia.
    + rewrite Zdigits2_shift; try lia.
      pose proof (Z.div_pos m (2 ^ n) Hm ltac:(apply Z.pow_pos_nonneg; lia)). lia.
Qed.

Lemma Zdigits2_shiftl m n : 0 < m -> 0 <= n -> Zdigits2 (m * 2 ^ n) = Zdigits2 m + n.
Proof.
  intros Hm Hn. pose proof (Z.pow_pos_nonneg 2 n ltac:(lia) Hn).
  rewrite !Zdigits2_log2 by nia.
  rewrite <- Z.shiftl_mul_pow2 by lia. rewrite Z.log2_shiftl by lia. lia.
Qed.

Lemma Zdigits2_ge_pow m k : 0 <= k -> 2 ^ k <= m -> k < Zdigits2 m.
Proof.
  intros Hk Hm. pose proof (Z.pow_pos_nonneg 2 k ltac:(lia) Hk).
  pose proof (Zdigits2_bounds m ltac:(lia)) as [_ Hub].
  apply (Z.pow_lt_mono_r_iff 2); try lia. apply Zdigits2_nonneg.
Qed.

End Digits.

Section Shift.

Lemma fexp_unfold e : fexp e = Z.max (e - 53) (-1074).
Proof. reflexivity. Qed.

Lemma fexp_mono a b : a <= b -> fexp a <= fexp b.
Proof. rewrite !fexp_unfold. lia. Qed.

Lemma shr_1_m r : 0 <= shr_m r -> shr_m (shr_1 r) = shr_m r / 2.
Proof.
  destruct r as [m r s]. simpl. intros Hm.
  rewrite <- Z.div2_div. destruct m as [|[p|p|]|p]; simpl; try reflexivity; lia.
Qed.

Lemma iter_pos_shr_1_m p r :
  0 <= shr_m r -> shr_m (SpecFloat.iter_pos shr_1 p r) = shr_m r / 2 ^ Zpos p.
Proof.
  revert r. induction p as [p IH|p IH|]; intros r Hr; simpl SpecFloat.iter_pos.
  - assert (H1 : 0 <= shr_m (shr_1 r)).
    { rewrite shr_1_m by lia. apply Z.div_pos; lia. }
    assert (H2 : 0 <= shr_m (SpecFloat.iter_pos shr_1 p (shr_1 r))).
    { rewrite IH by lia. apply Z.div_pos; [lia|]. apply Z.pow_pos_nonneg; lia. }
    assert (Hp : 2 ^ Zpos p~1 = 2 * (2 ^ Zpos p * 2 ^ Zpos p)).
    { rewrite (Pos2Z.inj_xI p).
      replace (2 * Zpos p + 1) with (1 + Zpos p + Zpos p) by lia.
      rewrite !Z.pow_add_r by lia. lia. }
    rewrite IH, IH, shr_1_m, Hp by lia.
    rewrite !Z.div_div by (try apply Z.pow_pos_nonneg; lia). reflexivity.
  - assert (H2 : 0 <= shr_m (SpecFloat.iter_pos shr_1 p r)).
    { rewrite IH by lia. apply Z.div_pos; [lia|]. apply Z.pow_pos_nonneg; lia. }
    assert (Hp : 2 ^ Zpos p~0 = 2 ^ Zpos p * 2 ^ Zpos p).
    { rewrite (Pos2Z.inj_xO p).
      replace (2 * Zpos p) with (Zpos p + Zpos p) by lia.
      rewrite !Z.pow_add_r by lia. lia. }
    rewrite IH, IH, Hp by lia.
    rewrite !Z.div_div by (try apply Z.pow_pos_nonneg; lia). reflexivity.
  - rewrite shr_1_m by lia. reflexivity.
Qed.

Lemma shr_spec r e n :
  0 <= shr_m r ->
  shr_m (fst (shr r e n)) = shr_m r / 2 ^ Z.max 0 n /\ snd (shr r e n) = e + Z.max 0 n.
Proof.
  intros Hr. destruct n as [|p|p]; simpl.
  - rewrite Z.div_1_r. lia.
  - rewrite iter_pos_shr_1_m by lia. split; reflexivity.
  - rewrite Z.div_1_r. lia.
Qed.

Lemma shr_m_record_of_loc m l : shr_m (shr_record_of_loc m l) = m.
Proof. destruct l as [|[]]; reflexivity. Qed.

Lemma shr_fexp_spec m e l :
  0 <= m ->
  let e' := Z.max e (fexp (Zdigits2 m + e)) in
  shr_m (fst (shr_fexp prec emax m e l)) = m / 2 ^ (e' - e) /\
  snd (shr_fexp prec emax m e l) = e'.
Proof.
  intros Hm e'. unfold shr_fexp.
  destruct (shr_spec (shr_record_of_loc m l) e (fexp (Zdigits2 m + e) - e)) as [H1 H2].
  { rewrite shr_m_record_of_loc. lia. }
  rewrite H1, H2, shr_m_record_of_loc.
  replace (Z.max 0 (fexp (Zdigits2 m + e) - e)) with (e' - e) by (unfold e'; lia).
  split; [reflexivity|unfold e'; lia].
Qed.

Lemma round_nearest_even_bounds m l :
  m <= round_nearest_even m l <= m + 1.
Proof.
  destruct l as [|[]]; simpl; try lia. destruct (Z.even m); lia.
Qed.

Lemma binary_round_aux_spec sx mx ex lx :
  0 <= mx ->
  let e1 := Z.max ex (fexp (Zdigits2 mx + ex)) in
  let q := mx / 2 ^ (e1 - ex) in
  exists m1, q <= m1 <= q + 1 /\
    let e2 := Z.max e1 (fexp (Zdigits2 m1 + e1)) in
    binary_round_aux prec emax sx mx ex lx = round_result sx (m1 / 2 ^ (e2 - e1)) e2.
Proof.
  intros Hm e1 q. unfold binary_round_aux.
  destruct (shr_fexp_spec mx ex lx Hm) as [H1 H2]. fold e1 in H1, H2. fold q in H1.
  destruct (shr_fexp prec emax mx ex lx) as [mrs' e'] eqn:E1. simpl in H1, H2. subst e'.
  set (m1 := round_nearest_even (shr_m mrs') (loc_of_shr_record mrs')).
  assert (Hq : 0 <= q).
  { apply Z.div_pos; [lia|]. apply Z.pow_pos_nonneg; unfold e1; lia. }
  assert (Hb : q <= m1 <= q + 1).
  { unfold m1. rewrite <- H1. apply round_nearest_even_bounds. }
  exists m1. split; [exact Hb|]. cbv zeta.
  set (e2 := Z.max e1 (fexp (Zdigits2 m1 + e1))).
  destruct (shr_fexp_spec m1 e1 loc_Exact ltac:(lia)) as [H3 H4]. fold e2 in H3, H4.
  destruct (shr_fexp prec emax m1 e1 loc_Exact) as [mrs'' e''] eqn:E2.
  simpl in H3, H4. subst e''. rewrite H3. reflexivity.
Qed.

(** A mantissa that is exact and already canonical is left as it is. *)
Lemma binary_round_aux_exact sx mx ex :
  0 <= mx -> fexp (Zdigits2 mx + ex) = ex ->
  binary_round_aux prec emax sx mx ex loc_Exact = round_result sx mx ex.
Proof.
  intros Hm Hcan. unfold binary_round_aux, shr_fexp.
  rewrite Hcan, Z.sub_diag. simpl shr. cbn [shr_m shr_r shr_s loc_of_shr_record].
  simpl round_nearest_even. rewrite Hcan, Z.sub_diag. reflexivity.
Qed.

End Shift.

Section RoundFacts.

Lemma round_result_nonneg m e : 0 <= m -> nonneg (round_result false m e) = true.
Proof.
  intros Hm. destruct m as [|p|p]; [reflexivity| |lia].
  simpl. destruct (e <=? emax - prec); reflexivity.
Qed.

Lemma round_result_valid sx m e :
  (0 < m -> fexp (Zdigits2 m + e) = e) -> valid (round_result sx m e) = true.
Proof.
  destruct m as [|p|p]; simpl; try reflexivity. intros H.
  destruct (e <=? emax - prec) eqn:E; [|reflexivity].
  unfold valid. simpl. unfold bounded, canonical_mantissa. rewrite E.
  rewrite andb_true_r. apply Z.eqb_eq. apply H. lia.
Qed.

Lemma binary_round_aux_nonneg mx ex lx :
  0 <= mx -> nonneg (binary_round_aux prec emax false mx ex lx) = true.
Proof.
  intros Hm. destruct (binary_round_aux_spec false mx ex lx Hm) as (m1 & Hb & ->).
  apply round_result_nonneg. apply Z.div_pos.
  - assert (0 <= mx / 2 ^ (Z.max ex (fexp (Zdigits2 mx + ex)) - ex)); [|lia].
    apply Z.div_pos; [lia|]. apply Z.pow_pos_nonneg; lia.
  - apply Z.pow_pos_nonneg; lia.
Qed.

(** Rounding a mantissa that is at least as fine as the format asks for
    gives a canonical result. *)
Lemma binary_round_aux_valid sx mx ex lx :
  0 <= mx -> ex <= fexp (Zdigits2 mx + ex) ->
  valid (binary_round_aux prec emax sx mx ex lx) = true.
Proof.
  intros Hm Hfine.
  destruct (binary_round_aux_spec sx mx ex lx Hm) as (m1 & Hb & ->).
  replace (Z.max ex (fexp (Zdigits2 mx + ex))) with (fexp (Zdigits2 mx + ex)) in * by lia.
  set (e1 := fexp (Zdigits2 mx + ex)) in *.
  set (q := mx / 2 ^ (e1 - ex)) in *.
  assert (Hq : 0 <= q).
  { apply Z.div_pos; [lia|]. apply Z.pow_pos_nonneg; lia. }
  assert (HA : e1 <= fexp (Zdigits2 m1 + e1)).
  { pose proof (Zdigits2_shift_ge mx (e1 - ex) Hm ltac:(lia)) as Hd. fold q in Hd.
    pose proof (Zdigits2_mono q m1 ltac:(lia)) as Hd1.
    pose proof (fexp_unfold (Zdigits2 mx + ex)) as F1. fold e1 in F1.
    pose proof (fexp_unfold (Zdigits2 m1 + e1)) as F2. lia. }
  replace (Z.max e1 (fexp (Zdigits2 m1 + e1))) with (fexp (Zdigits2 m1 + e1)) by lia.
  set (e2 := fexp (Zdigits2 m1 + e1)) in *.
  apply round_result_valid. intros Hpos.
  assert (0 < m1).
  { destruct (Z.eq_dec m1 0) as [->|]; [|lia].
    rewrite Z.div_0_l in Hpos; [lia|]. apply Z.pow_nonzero; lia. }
  rewrite Zdigits2_shift by lia.
  replace (Zdigits2 m1 - (e2 - e1) + e2) with (Zdigits2 m1 + e1) by lia.
  reflexivity.
Qed.

Lemma iter_xO_spec m d : Zpos (Pos.iter xO m d) = Zpos m * 2 ^ Zpos d.
Proof.
  rewrite (Pos.iter_swap_gen _ _ Zpos xO (Z.mul 2)) by reflexivity.
  change (Pos.iter (Z.mul 2) (Zpos m) d) with (Z.shiftl (Zpos m) (Zpos d)).
  apply Z.shiftl_mul_pow2. lia.
Qed.

Lemma shl_align_spec mx ex e' :
  snd (shl_align mx ex e') = Z.min ex e' /\
  Zpos (fst (shl_align mx ex e')) = Zpos mx * 2 ^ (ex - Z.min ex e').
Proof.
  unfold shl_align. destruct (e' - ex) as [|d|d] eqn:E; simpl.
  - replace (Z.min ex e') with ex by lia. rewrite Z.sub_diag. lia.
  - replace (Z.min ex e') with ex by lia. rewrite Z.sub_diag. lia.
  - replace (Z.min ex e') with e' by lia. rewrite iter_xO_spec.
    replace (ex - e') with (Zpos d) by lia. lia.
Qed.

Lemma binary_round_valid sx mx ex : valid (binary_round prec emax sx mx ex) = true.
Proof.
  unfold binary_round.
  destruct (shl_align_spec mx ex (fexp (Zpos (digits2_pos mx) + ex))) as [He Hm].
  destruct (shl_align mx ex (fexp (Zpos (digits2_pos mx) + ex))) as [mz ez].
  simpl in He, Hm. apply binary_round_aux_valid; [lia|].
  rewrite Hm, Zdigits2_shiftl by lia. simpl Zdigits2.
  replace (Zpos (digits2_pos mx) + (ex - Z.min ex (fexp (Zpos (digits2_pos mx) + ex))) + ez)
    with (Zpos (digits2_pos mx) + ex) by lia.
  lia.
Qed.

Lemma binary_round_nonneg mx ex : nonneg (binary_round prec emax false mx ex) = true.
Proof.
  unfold binary_round.
  destruct (shl_align mx ex (fexp (Zpos (digits2_pos mx) + ex))) as [mz ez].
  apply binary_round_aux_nonneg. lia.
Qed.

Lemma binary_normalize_valid m e s : valid (binary_normalize prec emax m e s) = true.
Proof. destruct m; simpl; [reflexivity| |]; apply binary_round_valid. Qed.

Lemma of_Z_valid z : valid (of_Z z) = true.
Proof. apply binary_normalize_valid. Qed.

Lemma of_Z_nonneg z : 0 <= z -> nonneg (of_Z z) = true.
Proof.
  intros Hz. unfold of_Z. destruct z; [reflexivity| |lia].
  apply binary_round_nonneg.
Qed.

Lemma of_N_valid n : valid (of_N n) = true.
Proof. apply of_Z_valid. Qed.

Lemma of_N_nonneg n : nonneg (of_N n) = true.
Proof. apply of_Z_nonneg. lia. Qed.

End RoundFacts.

Section AddFacts.

Lemma valid_finite s m e :
  valid (S754_finite s m e) = true <->
  fexp (Zdigits2 (Zpos m) + e) = e /\ e <= emax - prec.
Proof.
  unfold valid. simpl. unfold bounded, canonical_mantissa.
  rewrite andb_true_iff, Z.eqb_eq, Z.leb_le. reflexivity.
Qed.

Lemma pow2_le_digits m : 0 < m -> 2 ^ (Zdigits2 m - 1) <= m.
Proof. intros H. apply Zdigits2_bounds. exact H. Qed.

Lemma div_pow2_pos m n : 0 < m -> 0 <= n -> n <= Zdigits2 m - 1 -> 0 < m / 2 ^ n.
Proof.
  intros Hm Hn Hle. apply Z.div_str_pos. split; [apply Z.pow_pos_nonneg; lia|].
  eapply Z.le_trans; [|apply pow2_le_digits; exact Hm].
  apply Z.pow_le_mono_r; lia.
Qed.

(** The sum of two positive finite doubles, the first one canonical. *)
Lemma add_finite_spec mx ex my ey :
  valid (S754_finite false mx ex) = true ->
  let ez := Z.min ex ey in
  exists m e,
    add (S754_finite false mx ex) (S754_finite false my ey) = round_result false m e /\
    0 < m /\ ex <= e /\
    (e = ex -> (Zpos mx * 2 ^ (ex - ez) + Zpos my * 2 ^ (ey - ez)) / 2 ^ (ex - ez) <= m).
Proof.
  intros Hv ez. apply valid_finite in Hv. destruct Hv as [Hcan _].
  unfold add, SFadd. fold ez. simpl cond_Zopp.
  destruct (shl_align_spec mx ex ez) as [_ Ha].
  destruct (shl_align_spec my ey ez) as [_ Hb].
  replace (Z.min ex ez) with ez in Ha by lia.
  replace (Z.min ey ez) with ez in Hb by lia.
  set (a := fst (shl_align mx ex ez)) in *. set (b := fst (shl_align my ey ez)) in *.
  change (Zpos a + Zpos b) with (Zpos (a + b)). simpl binary_normalize.
  rewrite <- Ha, <- Hb. change (Zpos a + Zpos b) with (Zpos (a + b)).
  set (M := (a + b)%positive).
  assert (HdM : Zdigits2 (Zpos mx) + ex - ez <= Zdigits2 (Zpos M)).
  { replace (Zdigits2 (Zpos mx) + ex - ez) with (Zdigits2 (Zpos a)).
    - apply Zdigits2_mono. unfold M. lia.
    - rewrite Ha, Zdigits2_shiftl by lia. lia. }
  pose proof (Zdigits2_pos (Zpos mx) ltac:(lia)) as Hdx.
  pose proof (fexp_unfold (Zdigits2 (Zpos mx) + ex)) as Fx.
  pose proof (fexp_unfold (Zdigits2 (Zpos M) + ez)) as FM.
  unfold binary_round.
  destruct (shl_align_spec M ez (fexp (Zpos (digits2_pos M) + ez))) as [He Hm].
  destruct (shl_align M ez (fexp (Zpos (digits2_pos M) + ez))) as [mz ez'].
  simpl in He, Hm. change (Zpos (digits2_pos M)) with (Zdigits2 (Zpos M)) in *.
  replace (Z.min ez (fexp (Zdigits2 (Zpos M) + ez))) with ez in He, Hm by lia.
  subst ez'. rewrite Z.sub_diag, Z.mul_1_r in Hm. injection Hm as ->.
  destruct (binary_round_aux_spec false (Zpos M) ez loc_Exact ltac:(lia)) as (m1 & Hb1 & ->).
  set (f := fexp (Zdigits2 (Zpos M) + ez)) in *.
  replace (Z.max ez f) with f in * by lia.
  set (q := Zpos M / 2 ^ (f - ez)) in *.
  assert (Hq : 0 < q).
  { apply div_pow2_pos; lia. }
  pose proof (fexp_unfold (Zdigits2 m1 + f)) as F1.
  set (e2 := Z.max f (fexp (Zdigits2 m1 + f))) in *.
  pose proof (Zdigits2_pos m1 ltac:(lia)) as Hd1.
  exists (m1 / 2 ^ (e2 - f)), e2. split; [reflexivity|].
  split; [apply div_pow2_pos; lia|]. split; [lia|].
  intros Heq. assert (Hf : f = ex) by lia.
  replace (e2 - f) with 0 by lia. rewrite Z.pow_0_r, Z.div_1_r.
  replace (ex - ez) with (f - ez) by lia. fold q. lia.
Qed.

Lemma leb_finite m1 e1 m2 e2 :
  leb (S754_finite false m1 e1) (S754_finite false m2 e2) = true <->
  e1 < e2 \/ (e1 = e2 /\ Zpos m1 <= Zpos m2).
Proof.
  unfold leb, SFleb. simpl.
  destruct (Z.compare_spec e1 e2); [|split; [lia|reflexivity]|split; [discriminate|lia]].
  change (Pos.compare_cont Eq m1 m2) with (Pos.compare m1 m2).
  destruct (Pos.compare_spec m1 m2); split; try discriminate; try lia; reflexivity.
Qed.

Lemma ltb_finite m1 e1 m2 e2 :
  ltb (S754_finite false m1 e1) (S754_finite false m2 e2) = true <->
  e1 < e2 \/ (e1 = e2 /\ Zpos m1 < Zpos m2).
Proof.
  unfold ltb, SFltb. simpl.
  destruct (Z.compare_spec e1 e2); [|split; [lia|reflexivity]|split; [discriminate|lia]].
  change (Pos.compare_cont Eq m1 m2) with (Pos.compare m1 m2).
  destruct (Pos.compare_spec m1 m2); split; try discriminate; try lia; reflexivity.
Qed.

Lemma add_nonneg x y : nonneg x = true -> nonneg y = true -> nonneg (add x y) = true.
Proof.
  destruct x as [[]|[]| |[] mx ex], y as [[]|[]| |[] my ey]; simpl; try discriminate;
    try reflexivity. intros _ _.
  unfold add, SFadd. simpl cond_Zopp.
  change (Zpos ?a + Zpos ?b) with (Zpos (a + b)). apply binary_round_nonneg.
Qed.

Lemma add_valid x y : valid x = true -> valid y = true -> valid (add x y) = true.
Proof.
  intros Hx Hy.
  destruct x as [[]|[]| |sx mx ex], y as [[]|[]| |sy my ey]; try reflexivity;
    try exact Hx; try exact Hy.
  apply binary_normalize_valid.
Qed.

(** Adding a non-negative double never gives a smaller one. *)
Lemma add_le x y :
  nonneg x = true -> valid x = true -> nonneg y = true -> leb x (add x y) = true.
Proof.
  intros Hx Hv Hy.
  destruct x as [[]|[]| |[] mx ex], y as [[]|[]| |[] my ey]; try discriminate;
    try reflexivity.
  - apply leb_refl. reflexivity.
  - destruct (add_finite_spec mx ex my ey Hv) as (m & e & -> & Hm & He & Hq).
    destruct m as [|p|p]; try lia. simpl.
    destruct (e <=? emax - prec); [|reflexivity].
    apply leb_finite. destruct (Z.eq_dec e ex) as [->|]; [right|lia].
    split; [reflexivity|]. specialize (Hq eq_refl).
    eapply Z.le_trans; [|exact Hq].
    apply Z.div_le_lower_bound; [apply Z.pow_pos_nonneg; lia|].
    pose proof (Z.pow_pos_nonneg 2 (ey - Z.min ex ey) ltac:(lia) ltac:(lia)). nia.
Qed.

(** Integers below [2^53] convert exactly. *)
Lemma of_Z_exact z :
  0 < z < 2 ^ 53 ->
  exists p, Zpos p = z * 2 ^ (53 - Zdigits2 z) /\
            of_Z z = S754_finite false p (Zdigits2 z - 53).
Proof.
  intros [Hz Hlt]. destruct z as [|q|q]; try lia.
  assert (Hd : 0 < Zdigits2 (Zpos q) <= 53).
  { split; [apply Zdigits2_pos; lia|].
    pose proof (pow2_le_digits (Zpos q) ltac:(lia)) as Hlb.
    assert (Zdigits2 (Zpos q) - 1 < 53); [|lia].
    apply (Z.pow_lt_mono_r_iff 2); lia. }
  unfold of_Z. simpl binary_normalize. unfold binary_round.
  destruct (shl_align_spec q 0 (fexp (Zpos (digits2_pos q) + 0))) as [He Hm].
  destruct (shl_align q 0 (fexp (Zpos (digits2_pos q) + 0))) as [mz ez].
  simpl in He, Hm. change (Zpos (digits2_pos q)) with (Zdigits2 (Zpos q)) in *.
  rewrite <- He in Hm. rewrite fexp_unfold in He.
  assert (Hez : ez = Zdigits2 (Zpos q) - 53) by lia. clear He. subst ez.
  replace (0 - (Zdigits2 (Zpos q) - 53)) with (53 - Zdigits2 (Zpos q)) in Hm by lia.
  exists mz. split; [exact Hm|].
  rewrite binary_round_aux_exact; [| lia |].
  - unfold round_result.
    destruct (Zdigits2 (Zpos q) - 53 <=? emax - prec) eqn:E; [reflexivity|].
    apply Z.leb_gt in E. unfold emax, prec in E. lia.
  - rewrite Hm, Zdigits2_shiftl by lia. rewrite fexp_unfold. lia.
Qed.

(** Adding a double that is at least [1] to a positive canonical double
    below [2^53] gives a larger one. *)
Lemma add_finite_lt mx ex my ey :
  valid (S754_finite false mx ex) = true -> ex <= 0 -> ey <= 0 ->
  2 ^ (- ey) <= Zpos my ->
  ltb (S754_finite false mx ex) (add (S754_finite false mx ex) (S754_finite false my ey)) = true.
Proof.
  intros Hv Hex Hey Hy.
  destruct (add_finite_spec mx ex my ey Hv) as (m & e & -> & Hm & He & Hq).
  destruct m as [|p|p]; try lia. simpl.
  destruct (e <=? emax - prec); [|reflexivity].
  apply ltb_finite. destruct (Z.eq_dec e ex) as [->|]; [right|lia].
  split; [reflexivity|]. specialize (Hq eq_refl).
  eapply Z.lt_le_trans; [|exact Hq].
  set (ez := Z.min ex ey) in *.
  assert (Zpos mx + 1 <= (Zpos mx * 2 ^ (ex - ez) + Zpos my * 2 ^ (ey - ez)) / 2 ^ (ex - ez));
    [|lia].
  apply Z.div_le_lower_bound; [apply Z.pow_pos_nonneg; lia|].
  assert (Hpow : 2 ^ (ex - ez) <= Zpos my * 2 ^ (ey - ez)).
  { apply Z.le_trans with (2 ^ (- ey) * 2 ^ (ey - ez)).
    - rewrite <- Z.pow_add_r by lia. apply Z.pow_le_mono_r; lia.
    - apply Z.mul_le_mono_nonneg_r; [apply Z.pow_nonneg; lia|exact Hy]. }
  lia.
Qed.

Lemma ltb_below_2_53 mx ex :
  valid (S754_finite false mx ex) = true ->
  ltb (S754_finite false mx ex) (of_Z (2 ^ 53)) = true -> ex <= 0.
Proof.
  intros Hv Hlt. apply valid_finite in Hv. destruct Hv as [Hcan _].
  change (of_Z (2 ^ 53)) with (S754_finite false 4503599627370496 1) in Hlt.
  apply ltb_finite in Hlt. destruct Hlt as [|[-> Hlt]]; [lia|].
  rewrite fexp_unfold in Hcan.
  assert (Hd : Zdigits2 (Zpos mx) = 53) by lia.
  pose proof (pow2_le_digits (Zpos mx) ltac:(lia)) as Hlb. rewrite Hd in Hlb.
  change (2 ^ (53 - 1)) with 4503599627370496 in Hlb. lia.
Qed.

(** Absorbing a token between [1] and [2^53 - 1] makes a weight below
    [2^53] strictly larger. *)
Lemma add_token_lt x t :
  nonneg x = true -> valid x = true -> ltb x (of_Z (2 ^ 53)) = true ->
  0 < t < 2 ^ 53 -> ltb x (add x (of_Z t)) = true.
Proof.
  intros Hx Hv Hlt Ht.
  destruct (of_Z_exact t Ht) as (p & Hp & ->).
  assert (Hd : 0 < Zdigits2 t <= 53).
  { split; [apply Zdigits2_pos; lia|].
    pose proof (pow2_le_digits t ltac:(lia)) as Hlb.
    assert (Zdigits2 t - 1 < 53); [|lia].
    apply (Z.pow_lt_mono_r_iff 2); lia. }
  destruct x as [[]|[]| |[] mx ex]; try discriminate.
  - reflexivity.
  - apply add_finite_lt; [exact Hv|eapply ltb_below_2_53; eassumption|lia|].
    rewrite Hp. replace (- (Zdigits2 t - 53)) with (53 - Zdigits2 t) by lia.
    pose proof (Z.pow_pos_nonneg 2 (53 - Zdigits2 t) ltac:(lia) ltac:(lia)). nia.
Qed.

Lemma add_zero_r x : nonneg x = true -> add x zero = x.
Proof. destruct x as [[]|[]| |[] mx ex]; try discriminate; reflexivity. Qed.

End AddFacts.

Section MulDivFacts.

Lemma Zdigits2_mul_ge a b :
  0 < a -> 0 < b -> Zdigits2 a + Zdigits2 b - 1 <= Zdigits2 (a * b).
Proof.
  intros Ha Hb.
  pose proof (Zdigits2_pos a Ha). pose proof (Zdigits2_pos b Hb).
  pose proof (pow2_le_digits a Ha) as Ha'. pose proof (pow2_le_digits b Hb) as Hb'.
  assert (Hp : 2 ^ (Zdigits2 a + Zdigits2 b - 2) <= a * b).
  { replace (Zdigits2 a + Zdigits2 b - 2) with ((Zdigits2 a - 1) + (Zdigits2 b - 1)) by lia.
    rewrite Z.pow_add_r by lia.
    pose proof (Z.pow_pos_nonneg 2 (Zdigits2 a - 1) ltac:(lia) ltac:(lia)).
    pose proof (Z.pow_pos_nonneg 2 (Zdigits2 b - 1) ltac:(lia) ltac:(lia)). nia. }
  apply Zdigits2_ge_pow in Hp; lia.
Qed.

Lemma Zdigits2_div_ge a b :
  0 < a -> 0 < b -> Zdigits2 a - Zdigits2 b <= Zdigits2 (a / b).
Proof.
  intros Ha Hb.
  pose proof (Zdigits2_pos a Ha). pose proof (Zdigits2_pos b Hb).
  pose proof (Zdigits2_nonneg (a / b)).
  destruct (Z.le_gt_cases (Zdigits2 a) (Zdigits2 b)) as [|Hgt]; [lia|].
  pose proof (pow2_le_digits a Ha) as Ha'.
  pose proof (Zdigits2_bounds b Hb) as [_ Hb'].
  assert (Hp : 2 ^ (Zdigits2 a - 1 - Zdigits2 b) <= a / b).
  { apply Z.div_le_lower_bound; [lia|].
    eapply Z.le_trans; [|exact Ha'].
    replace (Zdigits2 a - 1) with (Zdigits2 b + (Zdigits2 a - 1 - Zdigits2 b)) at 2 by lia.
    rewrite Z.pow_add_r by lia.
    pose proof (Z.pow_pos_nonneg 2 (Zdigits2 a - 1 - Zdigits2 b) ltac:(lia) ltac:(lia)). nia. }
  apply Zdigits2_ge_pow in Hp; lia.
Qed.

Lemma mul_valid x y : valid x = true -> valid y = true -> valid (mul x y) = true.
Proof.
  intros Hx Hy.
  destruct x as [sx|sx| |sx mx ex], y as [sy|sy| |sy my ey]; try reflexivity.
  apply valid_finite in Hx, Hy. destruct Hx as [Hx _], Hy as [Hy _].
  unfold mul, SFmul. apply binary_round_aux_valid; [lia|].
  pose proof (Zdigits2_mul_ge (Zpos mx) (Zpos my) ltac:(lia) ltac:(lia)) as Hd.
  change (Zpos mx * Zpos my) with (Zpos (mx * my)) in Hd.
  pose proof (Zdigits2_pos (Zpos mx) ltac:(lia)). pose proof (Zdigits2_pos (Zpos my) ltac:(lia)).
  rewrite fexp_unfold in *. lia.
Qed.

Lemma mul_finite_nonneg m e y :
  nonneg y = true -> nonneg (mul (S754_finite false m e) y) = true.
Proof.
  destruct y as [[]|[]| |[] my ey]; try discriminate; try reflexivity. intros _.
  apply binary_round_aux_nonneg. lia.
Qed.

Lemma rounded_square_nonneg x :
  is_nan x = false -> nonneg (rounded_square x) = true.
Proof.
  destruct x as [[]|[]| |[] m e]; try discriminate; try reflexivity; intros _;
    apply binary_round_aux_nonneg; lia.
Qed.

(** The correctly rounded square meets both assumptions on [std::pow]. *)
Lemma rounded_square_exact x :
  square_exact x = true -> rounded_square x = mul x x.
Proof. reflexivity. Qed.

Lemma rounded_square_sign x :
  valid x = true -> is_nan x = false ->
  nonneg (rounded_square x) = true /\ valid (rounded_square x) = true.
Proof.
  intros Hv Hn. split; [apply rounded_square_nonneg; exact Hn|].
  apply mul_valid; exact Hv.
Qed.

Lemma div_core_spec mx ex my ey :
  exists q e' l,
    SFdiv_core_binary prec emax (Zpos mx) ex (Zpos my) ey = (q, e', l) /\
    0 <= q /\ e' <= fexp (Zdigits2 q + e').
Proof.
  unfold SFdiv_core_binary.
  set (d1 := Zdigits2 (Zpos mx)). set (d2 := Zdigits2 (Zpos my)).
  set (e' := Z.min (fexp (d1 + ex - (d2 + ey))) (ex - ey)).
  set (s := ex - ey - e').
  set (m' := match s with Zpos _ => Z.shiftl (Zpos mx) s | Z0 => Zpos mx | Zneg _ => 0 end).
  assert (Hs : 0 <= s) by (unfold s, e'; lia).
  assert (Hm' : m' = Zpos mx * 2 ^ s).
  { unfold m'. destruct s as [|p|p]; [lia| |lia]. apply Z.shiftl_mul_pow2. lia. }
  pose proof (Z.pow_pos_nonneg 2 s ltac:(lia) Hs) as Hpow.
  assert (Hq : Z.div_eucl m' (Zpos my) = (m' / Zpos my, m' mod Zpos my)).
  { unfold Z.div, Z.modulo. destruct (Z.div_eucl m' (Zpos my)). reflexivity. }
  rewrite Hq. eexists _, _, _. split; [reflexivity|].
  split; [apply Z.div_pos; nia|].
  pose proof (Zdigits2_div_ge m' (Zpos my) ltac:(nia) ltac:(lia)) as Hd.
  rewrite Hm' in Hd at 1. rewrite Zdigits2_shiftl in Hd by lia. fold d1 d2 in Hd.
  pose proof (fexp_mono (d1 + ex - (d2 + ey)) (Zdigits2 (m' / Zpos my) + e')
                ltac:(unfold s in *; lia)).
  unfold e' at 1. lia.
Qed.

Lemma div_valid x y : valid (div x y) = true.
Proof.
  destruct x as [sx|sx| |sx mx ex], y as [sy|sy| |sy my ey]; try reflexivity.
  unfold div, SFdiv.
  destruct (div_core_spec mx ex my ey) as (q & e' & l & -> & Hq & He).
  apply binary_round_aux_valid; assumption.
Qed.

Lemma div_finite_nonneg x m e :
  nonneg x = true -> nonneg (div x (S754_finite false m e)) = true.
Proof.
  destruct x as [[]|[]| |[] mx ex]; try discriminate; try reflexivity. intros _.
  unfold div, SFdiv.
  destruct (div_core_spec mx ex m e) as (q & e' & l & -> & Hq & He).
  apply binary_round_aux_nonneg. assumption.
Qed.

Lemma nonneg_not_nan x : nonneg x = true -> is_nan x = false.
Proof. destruct x as [[]|[]| |[] m e]; try discriminate; reflexivity. Qed.

Lemma nonneg_zero_le x : nonneg x = true -> leb zero x = true.
Proof. destruct x as [[]|[]| |[] m e]; try discriminate; reflexivity. Qed.

End MulDivFacts.

(** ** Green boxes *)

Section Green.

Lemma most_recent_short n (l : list double) :
  (length l <= n)%nat -> most_recent n l = l.
Proof.
  intros H. unfold most_recent. replace (length l - n)%nat with 0%nat by lia.
  reflexivity.
Qed.




Lemma green_score_window b w :
  (calculateScoreForGreenBox b w).1 =
  square_of_mean (absorbed_weights_ (calculateScoreForGreenBox b w).2).
Proof. reflexivity. Qed.

Lemma green_run_cons b w ws :
  green_run b (w :: ws) =
  ((calculateScoreForGreenBox b w).1 :: (green_run (calculateScoreForGreenBox b w).2 ws).1,
   (green_run (calculateScoreForGreenBox b w).2 ws).2).
Proof.
  simpl. destruct (green_run _ ws). reflexivity.
Qed.







End Green.

(** ** Blue boxes *)

Section Blue.

Lemma blue_update_cases aw w :
  (aw = [] /\ blue_update aw w = Some [w]) \/
  (exists f l, front aw = Some f /\ back aw = Some l /\
     blue_update aw w =
     Some (if ltb w f then w :: aw else if ltb l w then aw ++ [w] else aw)).
Proof.
  destruct aw as [|f aw']; [left; split; reflexivity|right].
  destruct (last_is_Some (f :: aw')) as [_ [l Hl]]; [discriminate|].
  exists f, l. split; [reflexivity|]. split; [exact Hl|].
  unfold blue_update, front, back. rewrite Hl. simpl.
  destruct (ltb w f); [reflexivity|]. destruct (ltb l w); reflexivity.
Qed.

Lemma front_cons w (aw : list double) : front (w :: aw) = Some w.
Proof. reflexivity. Qed.

Lemma back_cons w (aw : list double) l : back aw = Some l -> back (w :: aw) = Some l.
Proof.
  unfold back. destruct aw as [|x aw]; [discriminate|].
  rewrite last_cons_cons. trivial.
Qed.

Lemma front_snoc (aw : list double) w f : front aw = Some f -> front (aw ++ [w]) = Some f.
Proof. destruct aw; [discriminate|]. trivial. Qed.

Lemma back_snoc (aw : list double) w : back (aw ++ [w]) = Some w.
Proof. apply last_snoc. Qed.

Lemma is_min_singleton w : is_nan w = false -> is_min w [w].
Proof.
  intros Hw. split; [left; reflexivity|].
  intros x [<-|[]]. apply leb_refl. exact Hw.
Qed.

Lemma is_max_singleton w : is_nan w = false -> is_max w [w].
Proof.
  intros Hw. split; [left; reflexivity|].
  intros x [<-|[]]. apply leb_refl. exact Hw.
Qed.

Lemma is_min_max_le lo hi l : is_min lo l -> is_max hi l -> leb lo hi = true.
Proof. intros [_ Hlo] [Hin _]. apply Hlo. exact Hin. Qed.

Lemma is_min_snoc_new lo l w :
  is_nan w = false -> is_min lo l -> ltb w lo = true -> is_min w (l ++ [w]).
Proof.
  intros Hw [Hin Hlo] Hlt. split; [apply in_or_app; right; left; reflexivity|].
  intros x Hx. apply in_app_or in Hx. destruct Hx as [Hx|[<-|[]]].
  - apply ltb_leb. eapply ltb_leb_trans; [exact Hlt|]. apply Hlo. exact Hx.
  - apply leb_refl. exact Hw.
Qed.

Lemma is_min_snoc_old lo l w :
  is_nan lo = false -> is_nan w = false ->
  is_min lo l -> ltb w lo = false -> is_min lo (l ++ [w]).
Proof.
  intros Hn Hw [Hin Hlo] Hlt. split; [apply in_or_app; left; exact Hin|].
  intros x Hx. apply in_app_or in Hx. destruct Hx as [Hx|[<-|[]]].
  - apply Hlo. exact Hx.
  - apply leb_total; assumption.
Qed.

Lemma is_max_snoc_new hi l w :
  is_nan w = false -> is_max hi l -> ltb hi w = true -> is_max w (l ++ [w]).
Proof.
  intros Hw [Hin Hhi] Hlt. split; [apply in_or_app; right; left; reflexivity|].
  intros x Hx. apply in_app_or in Hx. destruct Hx as [Hx|[<-|[]]].
  - apply ltb_leb. eapply leb_ltb_trans; [|exact Hlt]. apply Hhi. exact Hx.
  - apply leb_refl. exact Hw.
Qed.

Lemma is_max_snoc_old hi l w :
  is_nan hi = false -> is_nan w = false ->
  is_max hi l -> ltb hi w = false -> is_max hi (l ++ [w]).
Proof.
  intros Hn Hw [Hin Hhi] Hlt. split; [apply in_or_app; left; exact Hin|].
  intros x Hx. apply in_app_or in Hx. destruct Hx as [Hx|[<-|[]]].
  - apply Hhi. exact Hx.
  - apply leb_total; assumption.
Qed.

Lemma not_nan_In l x : not_nan l -> In x l -> is_nan x = false.
Proof.
  unfold not_nan. rewrite Forall_forall. intros H Hx. apply H.
  apply list_elem_of_In. exact Hx.
Qed.

(** One update of the buffer keeps the smallest weight in front and the
    largest at the back. *)
Lemma blue_update_step prev aw w :
  not_nan prev -> is_nan w = false -> blue_inv prev aw ->
  exists aw', blue_update aw w = Some aw' /\ blue_inv (prev ++ [w]) aw'.
Proof.
  intros Hprev Hw (lo & hi & Hf & Hb & Hlo & Hhi).
  assert (Hnlo : is_nan lo = false) by (eapply not_nan_In; [exact Hprev|apply Hlo]).
  assert (Hnhi : is_nan hi = false) by (eapply not_nan_In; [exact Hprev|apply Hhi]).
  pose proof (is_min_max_le lo hi prev Hlo Hhi) as Hle.
  destruct (blue_update_cases aw w) as [[-> _]|(f & l & Hf' & Hb' & ->)]; [discriminate|].
  rewrite Hf in Hf'. rewrite Hb in Hb'. injection Hf' as <-. injection Hb' as <-.
  eexists. split; [reflexivity|].
  destruct (ltb w lo) eqn:E1; [|destruct (ltb hi w) eqn:E2].
  - exists w, hi. split; [reflexivity|]. split; [apply back_cons; exact Hb|].
    split; [eapply is_min_snoc_new; eassumption|].
    apply is_max_snoc_old; try assumption.
    apply leb_not_ltb. apply ltb_leb. eapply ltb_leb_trans; eassumption.
  - exists lo, w. split; [apply front_snoc; exact Hf|]. split; [apply back_snoc|].
    split; [apply is_min_snoc_old; assumption|].
    eapply is_max_snoc_new; eassumption.
  - exists lo, hi. split; [exact Hf|]. split; [exact Hb|].
    split; [apply is_min_snoc_old|apply is_max_snoc_old]; assumption.
Qed.

Lemma blue_update_first w :
  is_nan w = false -> blue_update [] w = Some [w] /\ blue_inv [w] [w].
Proof.
  intros Hw. split; [reflexivity|]. exists w, w.
  split; [reflexivity|]. split; [reflexivity|].
  split; [apply is_min_singleton|apply is_max_singleton]; exact Hw.
Qed.

(** A weight strictly between the smallest and the largest leaves the
    buffer as it is. *)
Lemma blue_update_between prev aw lo hi w :
  blue_inv prev aw -> is_min lo prev -> is_max hi prev ->
  ltb lo w = true -> ltb w hi = true -> blue_update aw w = Some aw.
Proof.
  intros (lo' & hi' & Hf & Hb & Hlo' & Hhi') Hlo Hhi H1 H2.
  destruct (blue_update_cases aw w) as [[-> _]|(f & l & Hf' & Hb' & ->)]; [discriminate|].
  rewrite Hf in Hf'. rewrite Hb in Hb'. injection Hf' as <-. injection Hb' as <-.
  assert (ltb w lo' = false) as ->.
  { apply ltb_asym. eapply leb_ltb_trans; [|exact H1]. apply Hlo'. apply Hlo. }
  assert (ltb hi' w = false) as ->.
  { apply ltb_asym. eapply ltb_leb_trans; [exact H2|]. apply Hhi'. apply Hhi. }
  reflexivity.
Qed.

Lemma blue_score_spec b w aw lo hi :
  blue_update (absorbed_weights_ b) w = Some aw ->
  front aw = Some lo -> back aw = Some hi ->
  calculateScoreForBlueBox b w = Some (pairing lo hi, mkBox (add (weight_ b) w) aw).
Proof.
  intros H1 H2 H3. unfold calculateScoreForBlueBox. rewrite H1, H2, H3. reflexivity.
Qed.

Lemma blue_run_cons b w ws :
  blue_run b (w :: ws) =
  match calculateScoreForBlueBox b w with
  | Some (s, b') =>
    match blue_run b' ws with
    | Some (ss, b'') => Some (s :: ss, b'')
    | None => None
    end
  | None => None
  end.
Proof. simpl. destruct (calculateScoreForBlueBox b w) as [[s b']|]; reflexivity. Qed.

Lemma blue_run_snoc b ws w :
  blue_run b (ws ++ [w]) =
  match blue_run b ws with
  | Some (ss, b') =>
    match calculateScoreForBlueBox b' w with
    | Some (s, b'') => Some (ss ++ [s], b'')
    | None => None
    end
  | None => None
  end.
Proof.
  revert b. induction ws as [|x ws IH]; intros b.
  - simpl. destruct (calculateScoreForBlueBox b w) as [[s b']|]; reflexivity.
  - change ((x :: ws) ++ [w]) with (x :: (ws ++ [w])). rewrite !blue_run_cons.
    destruct (calculateScoreForBlueBox b x) as [[s b']|]; [|reflexivity].
    rewrite IH. destruct (blue_run b' ws) as [[ss b'']|]; [|reflexivity].
    destruct (calculateScoreForBlueBox b'' w) as [[s' b3]|]; reflexivity.
Qed.

Lemma blue_run_take b ws ss b' k :
  blue_run b ws = Some (ss, b') ->
  exists bk, blue_run b (take k ws) = Some (take k ss, bk).
Proof.
  revert b ss k. induction ws as [|x ws IH]; intros b ss k H.
  - injection H as <- <-. destruct k; exists b; reflexivity.
  - destruct k as [|k]; [exists b; reflexivity|].
    change (take (S k) (x :: ws)) with (x :: take k ws).
    rewrite blue_run_cons in *.
    destruct (calculateScoreForBlueBox b x) as [[s b1]|]; [|discriminate].
    destruct (blue_run b1 ws) as [[ss1 b2]|] eqn:E; [|discriminate].
    injection H as <- <-. destruct (IH b1 ss1 k E) as [bk ->].
    exists bk. reflexivity.
Qed.

(** After absorbing [ws] into a fresh blue box. *)
Lemma blue_run_inv w0 ws :
  not_nan ws ->
  exists ss b,
    blue_run (makeBlueBox w0) ws = Some (ss, b) /\ length ss = length ws /\
    ((ws = [] /\ absorbed_weights_ b = []) \/
     (exists lo hi,
        front (absorbed_weights_ b) = Some lo /\ back (absorbed_weights_ b) = Some hi /\
        is_min lo ws /\ is_max hi ws /\ last ss = Some (pairing lo hi))).
Proof.
  induction ws as [|w ws IH] using rev_ind; intros Hnn.
  - exists [], (makeBlueBox w0). split; [reflexivity|]. split; [reflexivity|].
    left. split; reflexivity.
  - apply Forall_app in Hnn. destruct Hnn as [Hws Hw].
    rewrite Forall_singleton in Hw.
    destruct (IH Hws) as (ss & b & Hrun & Hlen & Hinv).
    rewrite blue_run_snoc, Hrun.
    assert (exists aw, blue_update (absorbed_weights_ b) w = Some aw /\
                       blue_inv (ws ++ [w]) aw) as (aw & Hup & lo & hi & Hf & Hb & Hlo & Hhi).
    { destruct Hinv as [[-> ->]|(lo & hi & Hf & Hb & Hlo & Hhi & _)].
      - exists [w]. apply blue_update_first. exact Hw.
      - apply blue_update_step; [exact Hws|exact Hw|]. exists lo, hi. auto. }
    rewrite (blue_score_spec b w aw lo hi Hup Hf Hb).
    eexists _, _. split; [reflexivity|].
    split; [rewrite !length_app, Hlen; reflexivity|].
    right. exists lo, hi. simpl. rewrite last_snoc. auto.
Qed.

Lemma not_nan_take k ws : not_nan ws -> not_nan (take k ws).
Proof. apply Forall_take. Qed.

Lemma blue_run_kth w0 ws ss b k :
  not_nan ws -> blue_run (makeBlueBox w0) ws = Some (ss, b) ->
  (1 <= k <= length ws)%nat ->
  exists bk lo hi,
    blue_run (makeBlueBox w0) (take k ws) = Some (take k ss, bk) /\
    front (absorbed_weights_ bk) = Some lo /\ back (absorbed_weights_ bk) = Some hi /\
    is_min lo (take k ws) /\ is_max hi (take k ws) /\
    ss !! (k - 1)%nat = Some (pairing lo hi).
Proof.
  intros Hnn Hrun Hk.
  destruct (blue_run_take _ _ _ _ k Hrun) as [bk Hk1].
  destruct (blue_run_inv w0 (take k ws) (not_nan_take k ws Hnn))
    as (ss' & b' & Hrun' & Hlen' & Hinv).
  rewrite Hk1 in Hrun'. injection Hrun' as <- <-.
  destruct Hinv as [[E _]|(lo & hi & Hf & Hb & Hlo & Hhi & Hlast)].
  { apply (f_equal length) in E. rewrite length_take in E. simpl in E. lia. }
  exists bk, lo, hi. repeat (split; [assumption|]).
  rewrite last_lookup, Hlen', length_take in Hlast.
  replace (Init.Nat.pred (Nat.min k (length ws))) with (k - 1)%nat in Hlast by lia.
  rewrite lookup_take_lt in Hlast by lia. exact Hlast.
Qed.

Lemma blue_run_between w0 ws ss b k lo hi w :
  not_nan ws -> blue_run (makeBlueBox w0) ws = Some (ss, b) ->
  (1 <= k)%nat -> ws !! k = Some w ->
  is_min lo (take k ws) -> is_max hi (take k ws) ->
  ltb lo w = true -> ltb w hi = true ->
  ss !! k = ss !! (k - 1)%nat.
Proof.
  intros Hnn Hrun Hk Hw Hlo Hhi H1 H2.
  pose proof (lookup_lt_Some _ _ _ Hw) as Hlt.
  destruct (blue_run_kth w0 ws ss b k Hnn Hrun ltac:(lia))
    as (bk & lo' & hi' & Hrk & Hf & Hb & Hlo' & Hhi' & Hs).
  destruct (blue_run_take _ _ _ _ (S k) Hrun) as [bk' Hrk'].
  rewrite (take_S_r _ _ _ Hw), blue_run_snoc, Hrk in Hrk'.
  assert (Hup : blue_update (absorbed_weights_ bk) w = Some (absorbed_weights_ bk)).
  { apply (blue_update_between (take k ws) _ lo hi); try assumption.
    exists lo', hi'. auto. }
  rewrite (blue_score_spec bk w _ lo' hi' Hup Hf Hb) in Hrk'.
  injection Hrk' as Hss _. rewrite Hs.
  assert (Hlen : length (take k ss) = k).
  { apply (f_equal length) in Hss. rewrite length_app, !length_take in Hss.
    cbn [length] in Hss. rewrite length_take. lia. }
  assert (Hk' : take (S k) ss !! k = Some (pairing lo' hi')).
  { rewrite <- Hss. rewrite lookup_app_r by lia. rewrite Hlen, Nat.sub_diag. reflexivity. }
  rewrite lookup_take_lt in Hk' by lia. exact Hk'.
Qed.

End Blue.

(** ** Scores are well formed *)

Section Scores.

Lemma wf_zero : wf zero.
Proof. split; reflexivity. Qed.

Lemma wf_of_N n : wf (of_N n).
Proof. split; [apply of_N_nonneg|apply of_N_valid]. Qed.

Lemma wf_add x y : wf x -> wf y -> wf (add x y).
Proof.
  intros [Hx Hx'] [Hy Hy']. split; [apply add_nonneg|apply add_valid]; assumption.
Qed.

Lemma fold_add_wf l acc : wf acc -> Forall wf l -> wf (fold_left add l acc).
Proof.
  revert acc. induction l as [|x l IH]; intros acc Hacc Hl; simpl; [exact Hacc|].
  apply Forall_cons in Hl. destruct Hl as [Hx Hl].
  apply IH; [apply wf_add|]; assumption.
Qed.

Lemma accumulate_wf l : Forall wf l -> wf (accumulate l).
Proof. apply fold_add_wf. exact wf_zero. Qed.

Lemma of_nat_small n :
  (1 <= n <= 3)%nat -> exists m e, of_nat n = S754_finite false m e.
Proof.
  intros Hn.
  destruct n as [|[|[|[|n]]]]; try lia; eexists _, _; vm_compute; reflexivity.
Qed.

Lemma square_of_mean_wf l :
  (1 <= length l <= 3)%nat -> Forall wf l -> wf (square_of_mean l).
Proof.
  intros Hlen Hl. unfold square_of_mean.
  destruct (of_nat_small (length l) Hlen) as (m & e & ->).
  destruct (accumulate_wf l Hl) as [Hs _].
  pose proof (div_finite_nonneg (accumulate l) m e Hs) as Hmean.
  apply std_pow2_sign; [apply div_valid|].
  apply nonneg_not_nan. exact Hmean.
Qed.

Lemma green_step_wf b w :
  Box_wf b -> (length (absorbed_weights_ b) <= 3)%nat -> wf w ->
  wf (calculateScoreForGreenBox b w).1 /\
  Box_wf (calculateScoreForGreenBox b w).2 /\
  (length (absorbed_weights_ (calculateScoreForGreenBox b w).2) <= 3)%nat.
Proof.
  intros [Hwb Haw] Hlen Hw. rewrite green_score_window.
  unfold calculateScoreForGreenBox. cbn [fst snd absorbed_weights_ weight_].
  set (aw := absorbed_weights_ b ++ [w]).
  assert (Hall : Forall wf aw) by (apply Forall_app_2; [exact Haw|apply Forall_singleton; exact Hw]).
  assert (Hl : length aw = S (length (absorbed_weights_ b))).
  { unfold aw. rewrite length_app. simpl. lia. }
  set (aw' := if (3 <? length aw)%nat then tail aw else aw).
  assert (Hall' : Forall wf aw').
  { unfold aw'. destruct (3 <? length aw)%nat; [apply Forall_tail|]; exact Hall. }
  assert (Hl' : (1 <= length aw' <= 3)%nat).
  { unfold aw'. destruct (Nat.ltb_spec 3 (length aw)); [|lia].
    destruct aw as [|x l]; simpl in *; lia. }
  split; [apply square_of_mean_wf; assumption|].
  split; [|lia]. split; [apply wf_add; assumption|exact Hall'].
Qed.

Lemma pairing_wf lo hi : wf lo -> wf hi -> wf (pairing lo hi).
Proof.
  intros Hlo Hhi. unfold pairing.
  pose proof (wf_add lo hi Hlo Hhi) as [Hs Hs'].
  set (sum := add lo hi) in *.
  assert (H1 : wf (of_Z 1)) by (split; reflexivity).
  pose proof (wf_add sum (of_Z 1) (conj Hs Hs') H1) as [Ht Ht'].
  assert (Hp : wf (mul sum (add sum (of_Z 1)))).
  { split; [|apply mul_valid; assumption].
    destruct sum as [[]|[]| |[] m e]; try discriminate.
    - reflexivity.
    - reflexivity.
    - apply mul_finite_nonneg. exact Ht. }
  apply wf_add; [|exact Hhi]. split; [|apply div_valid].
  change (of_Z 2) with (S754_finite false 4503599627370496 (-51)).
  apply div_finite_nonneg. apply Hp.
Qed.

Lemma front_In (l : list double) x : front l = Some x -> In x l.
Proof. destruct l; [discriminate|]. intros [= ->]. left. reflexivity. Qed.

Lemma back_In (l : list double) x : back l = Some x -> In x l.
Proof.
  intros H. apply last_Some in H. destruct H as [l' ->].
  apply in_or_app. right. left. reflexivity.
Qed.

Lemma Forall_In (P : double -> Prop) l x : Forall P l -> In x l -> P x.
Proof.
  rewrite Forall_forall. intros H Hx. apply H. apply list_elem_of_In. exact Hx.
Qed.

(** The blue scoring is defined on every box. *)
Lemma blue_step_total b w :
  exists aw lo hi,
    blue_update (absorbed_weights_ b) w = Some aw /\
    front aw = Some lo /\ back aw = Some hi /\
    (forall P : double -> Prop, Forall P (absorbed_weights_ b) -> P w -> Forall P aw).
Proof.
  destruct (blue_update_cases (absorbed_weights_ b) w)
    as [[E ->]|(f & l & Hf & Hb & ->)].
  - exists [w], w, w. repeat (split; [reflexivity|]).
    intros P _ Hw. apply Forall_singleton. exact Hw.
  - destruct (ltb w f); [|destruct (ltb l w)].
    + exists (w :: absorbed_weights_ b), w, l. split; [reflexivity|].
      split; [reflexivity|]. split; [apply back_cons; exact Hb|].
      intros P Ha Hw. apply Forall_cons. auto.
    + exists (absorbed_weights_ b ++ [w]), f, w. split; [reflexivity|].
      split; [apply front_snoc; exact Hf|]. split; [apply back_snoc|].
      intros P Ha Hw. apply Forall_app_2; [exact Ha|apply Forall_singleton; exact Hw].
    + exists (absorbed_weights_ b), f, l. auto.
Qed.

Lemma blue_step_wf b w :
  Box_wf b -> wf w ->
  exists s b', calculateScoreForBlueBox b w = Some (s, b') /\
    wf s /\ Box_wf b' /\ weight_ b' = add (weight_ b) w.
Proof.
  intros [Hwb Haw] Hw.
  destruct (blue_step_total b w) as (aw & lo & hi & Hup & Hf & Hb & Hall).
  rewrite (blue_score_spec b w aw lo hi Hup Hf Hb).
  pose proof (Hall wf Haw Hw) as Haw'.
  eexists _, _. split; [reflexivity|]. split.
  - apply pairing_wf; eapply Forall_In; try exact Haw'; [apply front_In|apply back_In]; assumption.
  - split; [|reflexivity]. split; [apply wf_add; assumption|exact Haw'].
Qed.

End Scores.

(** ** Turns *)

Section Turns.

Lemma min_element_from_lt rest i sm sb :
  (sm < i)%nat -> (min_element_from rest i sm sb < i + length rest)%nat.
Proof.
  revert i sm sb. induction rest as [|b rest IH]; intros i sm sb Hsm; simpl; [lia|].
  destruct (Box_lt b sb).
  - specialize (IH (S i) i b ltac:(lia)). lia.
  - specialize (IH (S i) sm sb ltac:(lia)). lia.
Qed.

Lemma min_element_lt bs : bs <> [] -> (min_element bs < length bs)%nat.
Proof.
  destruct bs as [|b rest]; [congruence|]. intros _. simpl.
  pose proof (min_element_from_lt rest 1 0 b ltac:(lia)). lia.
Qed.

Lemma min_element_from_spec pre rest sm sb :
  weights_not_nan (pre ++ rest) ->
  pre !! sm = Some sb ->
  (forall j bj, pre !! j = Some bj -> leb (weight_ sb) (weight_ bj) = true) ->
  (forall j bj, (j < sm)%nat -> pre !! j = Some bj ->
                ltb (weight_ sb) (weight_ bj) = true) ->
  first_min (pre ++ rest) (min_element_from rest (length pre) sm sb).
Proof.
  revert pre sm sb. induction rest as [|b rest IH]; intros pre sm sb Hnn Hsb Hle Hlt.
  - simpl. rewrite app_nil_r. exists sb. auto.
  - pose proof (lookup_lt_Some _ _ _ Hsb) as Hsm.
    assert (Hnb : is_nan (weight_ b) = false).
    { unfold weights_not_nan in Hnn. rewrite Forall_lookup in Hnn.
      apply (Hnn (length pre)).
      rewrite lookup_app_r by lia. rewrite Nat.sub_diag. reflexivity. }
    assert (Hnsb : is_nan (weight_ sb) = false).
    { unfold weights_not_nan in Hnn. rewrite Forall_lookup in Hnn.
      apply (Hnn sm). rewrite lookup_app_l by lia. exact Hsb. }
    replace (pre ++ b :: rest) with ((pre ++ [b]) ++ rest) in *
      by (rewrite <- app_assoc; reflexivity).
    simpl. replace (S (length pre)) with (length (pre ++ [b]))
      by (rewrite length_app; simpl; lia).
    unfold Box_lt. destruct (ltb (weight_ b) (weight_ sb)) eqn:E; apply IH; try exact Hnn.
    + rewrite lookup_app_r by lia. rewrite Nat.sub_diag. reflexivity.
    + intros j bj Hj. apply lookup_app_Some in Hj.
      destruct Hj as [Hj|[_ Hj]].
      * apply ltb_leb. eapply ltb_leb_trans; [exact E|]. eapply Hle. exact Hj.
      * apply list_lookup_singleton_Some in Hj. destruct Hj as [_ <-].
        apply leb_refl. exact Hnb.
    + intros j bj Hj Hbj. rewrite lookup_app_l in Hbj by lia.
      eapply ltb_leb_trans; [exact E|]. eapply Hle. exact Hbj.
    + rewrite lookup_app_l by lia. exact Hsb.
    + intros j bj Hj. apply lookup_app_Some in Hj.
      destruct Hj as [Hj|[_ Hj]].
      * eapply Hle. exact Hj.
      * apply list_lookup_singleton_Some in Hj. destruct Hj as [_ <-].
        apply leb_total; assumption.
    + intros j bj Hj Hbj. rewrite lookup_app_l in Hbj by lia.
      eapply Hlt; eassumption.
Qed.

(** [std::min_element] finds the first of the smallest weights. *)
Lemma min_element_first_min bs :
  bs <> [] -> weights_not_nan bs -> first_min bs (min_element bs).
Proof.
  destruct bs as [|b rest]; [congruence|]. intros _ Hnn.
  assert (Hb : is_nan (weight_ b) = false).
  { apply Forall_cons in Hnn. apply Hnn. }
  apply (min_element_from_spec [b] rest 0 b); [exact Hnn|reflexivity| |].
  - intros j bj Hj. apply list_lookup_singleton_Some in Hj. destruct Hj as [_ <-].
    apply leb_refl. exact Hb.
  - intros j bj Hj. lia.
Qed.

Lemma Box_wf_not_nan bs : Forall Box_wf bs -> weights_not_nan bs.
Proof.
  intros H. eapply Forall_impl; [exact H|].
  intros b [[Hn _] _]. apply nonneg_not_nan. exact Hn.
Qed.

(** What one call of [takeTurn] does to well-formed boxes. *)
Lemma takeTurn_spec p w bs :
  length bs = 4%nat -> Forall Box_wf bs ->
  (forall i b, (i < 2)%nat -> bs !! i = Some b ->
               (length (absorbed_weights_ b) <= 3)%nat) ->
  let i := min_element bs in
  exists b s b',
    bs !! i = Some b /\
    takeTurn p w bs = Some (mkPlayer (add (score_ p) s), <[i := b']> bs) /\
    wf s /\ Box_wf b' /\ weight_ b' = add (weight_ b) (of_N w) /\
    ((i < 2)%nat -> (length (absorbed_weights_ b') <= 3)%nat).
Proof.
  intros Hlen Hwf Hgreen i.
  assert (Hne : bs <> []) by (intros ->; discriminate).
  pose proof (min_element_lt bs Hne) as Hi. fold i in Hi.
  destruct (lookup_lt_is_Some_2 bs i Hi) as [b Hb].
  pose proof (Forall_lookup_1 _ _ _ _ Hwf Hb) as Hbwf.
  exists b. unfold takeTurn. fold i. rewrite Hb.
  destruct ((i =? 0)%nat || (i =? 1)%nat) eqn:E.
  - assert (Hi2 : (i < 2)%nat).
    { apply orb_true_iff in E. rewrite !Nat.eqb_eq in E. lia. }
    destruct (green_step_wf b (of_N w) Hbwf (Hgreen i b Hi2 Hb) (wf_of_N w))
      as (Hs & Hb' & Hl).
    destruct (calculateScoreForGreenBox b (of_N w)) as [s b'] eqn:Eg.
    exists s, b'. simpl in *. split; [reflexivity|]. split; [reflexivity|].
    split; [exact Hs|]. split; [exact Hb'|].
    split; [|intros _; exact Hl].
    unfold calculateScoreForGreenBox in Eg. injection Eg as _ <-. reflexivity.
  - destruct (blue_step_wf b (of_N w) Hbwf (wf_of_N w)) as (s & b' & -> & Hs & Hb' & Hw).
    exists s, b'. split; [reflexivity|]. split; [reflexivity|].
    split; [exact Hs|]. split; [exact Hb'|]. split; [exact Hw|].
    intros Hi2. apply orb_false_iff in E. rewrite !Nat.eqb_neq in E. lia.
Qed.

Lemma insert_green_window (bs : list Box) i b' :
  (forall j b, (j < 2)%nat -> bs !! j = Some b ->
               (length (absorbed_weights_ b) <= 3)%nat) ->
  ((i < 2)%nat -> (length (absorbed_weights_ b') <= 3)%nat) ->
  forall j b, (j < 2)%nat -> <[i := b']> bs !! j = Some b ->
              (length (absorbed_weights_ b) <= 3)%nat.
Proof.
  intros Hbs Hb' j b Hj Hlook.
  apply list_lookup_insert_Some in Hlook.
  destruct Hlook as [(-> & -> & _)|[_ Hlook]]; [apply Hb'; exact Hj|].
  eapply Hbs; eassumption.
Qed.

(** One turn of a well-formed game: it is defined, the game stays well
    formed, and the acting player's score grows by a non-negative amount
    while the other player's score stays. *)
Lemma turn_spec i w g :
  Game_wf g ->
  exists g' inc,
    turn i w g = Some g' /\ Game_wf g' /\ wf inc /\
    ((i mod 2 = 0)%nat /\ score_ (player_A g') = add (score_ (player_A g)) inc /\
       player_B g' = player_B g \/
     (i mod 2 <> 0)%nat /\ score_ (player_B g') = add (score_ (player_B g)) inc /\
       player_A g' = player_A g).
Proof.
  intros (Hlen & Hwf & Hgreen & HA & HB). unfold turn.
  destruct (Nat.eqb_spec (i mod 2) 0) as [Hpar|Hpar].
  - destruct (takeTurn_spec (player_A g) w (boxes g) Hlen Hwf Hgreen)
      as (b & s & b' & Hb & -> & Hs & Hb' & _ & Hl).
    eexists _, s. split; [reflexivity|]. split; [|split; [exact Hs|left; auto]].
    split; [simpl; rewrite length_insert; exact Hlen|].
    split; [simpl; apply Forall_insert; assumption|].
    split; [simpl; apply insert_green_window; assumption|].
    split; [apply wf_add; assumption|exact HB].
  - destruct (takeTurn_spec (player_B g) w (boxes g) Hlen Hwf Hgreen)
      as (b & s & b' & Hb & -> & Hs & Hb' & _ & Hl).
    eexists _, s. split; [reflexivity|]. split; [|split; [exact Hs|right; auto]].
    split; [simpl; rewrite length_insert; exact Hlen|].
    split; [simpl; apply Forall_insert; assumption|].
    split; [simpl; apply insert_green_window; assumption|].
    split; [exact HA|apply wf_add; assumption].
Qed.

(** The boxes stay well formed whatever [std::pow] returns. *)
Lemma green_step_box_wf b w :
  Box_wf b -> (length (absorbed_weights_ b) <= 3)%nat -> wf w ->
  Box_wf (calculateScoreForGreenBox b w).2 /\
  (length (absorbed_weights_ (calculateScoreForGreenBox b w).2) <= 3)%nat.
Proof.
  intros [Hwb Haw] Hlen Hw.
  unfold calculateScoreForGreenBox. cbn [fst snd absorbed_weights_ weight_].
  set (aw := absorbed_weights_ b ++ [w]).
  assert (Hall : Forall wf aw) by (apply Forall_app_2; [exact Haw|apply Forall_singleton; exact Hw]).
  assert (Hl : length aw = S (length (absorbed_weights_ b))).
  { unfold aw. rewrite length_app. simpl. lia. }
  set (aw' := if (3 <? length aw)%nat then tail aw else aw).
  assert (Hall' : Forall wf aw').
  { unfold aw'. destruct (3 <? length aw)%nat; [apply Forall_tail|]; exact Hall. }
  assert (Hl' : (1 <= length aw' <= 3)%nat).
  { unfold aw'. destruct (Nat.ltb_spec 3 (length aw)); [|lia].
    destruct aw as [|x l]; simpl in *; lia. }
  split; [|lia]. split; [apply wf_add; assumption|exact Hall'].
Qed.

Lemma takeTurn_boxes p w bs :
  Boxes_wf bs ->
  let i := min_element bs in
  exists b s b',
    bs !! i = Some b /\
    takeTurn p w bs = Some (mkPlayer (add (score_ p) s), <[i := b']> bs) /\
    Box_wf b' /\ weight_ b' = add (weight_ b) (of_N w) /\
    ((i < 2)%nat -> (length (absorbed_weights_ b') <= 3)%nat).
Proof.
  intros (Hlen & Hwf & Hgreen) i.
  assert (Hne : bs <> []) by (intros ->; discriminate).
  pose proof (min_element_lt bs Hne) as Hi. fold i in Hi.
  destruct (lookup_lt_is_Some_2 bs i Hi) as [b Hb].
  pose proof (Forall_lookup_1 _ _ _ _ Hwf Hb) as Hbwf.
  exists b. unfold takeTurn. fold i. rewrite Hb.
  destruct ((i =? 0)%nat || (i =? 1)%nat) eqn:E.
  - assert (Hi2 : (i < 2)%nat).
    { apply orb_true_iff in E. rewrite !Nat.eqb_eq in E. lia. }
    destruct (green_step_box_wf b (of_N w) Hbwf (Hgreen i b Hi2 Hb) (wf_of_N w))
      as (Hb' & Hl).
    destruct (calculateScoreForGreenBox b (of_N w)) as [s b'] eqn:Eg.
    exists s, b'. simpl in *. split; [reflexivity|]. split; [reflexivity|].
    split; [exact Hb'|]. split; [|intros _; exact Hl].
    unfold calculateScoreForGreenBox in Eg. injection Eg as _ <-. reflexivity.
  - destruct (blue_step_wf b (of_N w) Hbwf (wf_of_N w)) as (s & b' & -> & Hs & Hb' & Hw).
    exists s, b'. split; [reflexivity|]. split; [reflexivity|].
    split; [exact Hb'|]. split; [exact Hw|].
    intros Hi2. apply orb_false_iff in E. rewrite !Nat.eqb_neq in E. lia.
Qed.

Lemma turn_boxes_wf i w g :
  Boxes_wf (boxes g) -> exists g', turn i w g = Some g' /\ Boxes_wf (boxes g').
Proof.
  intros Hg. pose proof Hg as (Hlen & Hwf & Hgreen). unfold turn.
  destruct (i mod 2 =? 0)%nat.
  - destruct (takeTurn_boxes (player_A g) w (boxes g) Hg)
      as (b & s & b' & Hb & -> & Hb' & _ & Hl).
    eexists. split; [reflexivity|]. cbn [boxes].
    split; [rewrite length_insert; exact Hlen|].
    split; [apply Forall_insert; assumption|apply insert_green_window; assumption].
  - destruct (takeTurn_boxes (player_B g) w (boxes g) Hg)
      as (b & s & b' & Hb & -> & Hb' & _ & Hl).
    eexists. split; [reflexivity|]. cbn [boxes].
    split; [rewrite length_insert; exact Hlen|].
    split; [apply Forall_insert; assumption|apply insert_green_window; assumption].
Qed.

Lemma play_loop_boxes_wf i ws g :
  Boxes_wf (boxes g) -> exists g', play_loop i ws g = Some g' /\ Boxes_wf (boxes g').
Proof.
  revert i g. induction ws as [|w ws IH]; intros i g Hg; simpl.
  - exists g. auto.
  - destruct (turn_boxes_wf i w g Hg) as (g1 & -> & Hg1).
    apply IH. exact Hg1.
Qed.

Lemma initial_wf : Game_wf initial.
Proof.
  split; [reflexivity|]. split.
  - repeat apply Forall_cons_2; try apply Forall_nil_2;
      (split; [split; reflexivity|apply Forall_nil_2]).
  - split; [|split; apply wf_zero].
    intros i b Hi Hb. destruct i as [|[|i]]; try lia; injection Hb as <-; simpl; lia.
Qed.

Lemma initial_boxes_wf : Boxes_wf (boxes initial).
Proof. destruct initial_wf as (H1 & H2 & H3 & _). repeat split; assumption. Qed.

Lemma play_loop_snoc i ws w g :
  play_loop i (ws ++ [w]) g =
  match play_loop i ws g with
  | Some g' => turn (i + length ws) w g'
  | None => None
  end.
Proof.
  revert i g. induction ws as [|x ws IH]; intros i g; simpl.
  - rewrite Nat.add_0_r. destruct (turn i w g); reflexivity.
  - destruct (turn i x g) as [g'|]; [|reflexivity].
    rewrite IH. replace (S i + length ws)%nat with (i + S (length ws))%nat by lia.
    reflexivity.
Qed.

(** The loop of [play] never runs into undefined behaviour. *)
Lemma play_loop_wf i ws g :
  Game_wf g -> exists g', play_loop i ws g = Some g' /\ Game_wf g'.
Proof.
  revert i g. induction ws as [|w ws IH]; intros i g Hg; simpl.
  - exists g. auto.
  - destruct (turn_spec i w g Hg) as (g1 & inc & -> & Hg1 & _).
    apply IH. exact Hg1.
Qed.

End Turns.

(** ** The properties of the specification *)

Section Claims.

(** The literals, checked against correctly rounded quotients of integers. *)
Lemma literals_correct :
  d0_1 = div (of_Z 1) (of_Z 10) /\ d0_2 = div (of_Z 2) (of_Z 10) /\
  d0_3 = div (of_Z 3) (of_Z 10) /\ d13 = of_Z 13 /\ d25 = of_Z 25 /\
  d155 = of_Z 155 /\ d366_25 = div (of_Z 1465) (of_Z 4).
Proof. vm_compute. repeat split. Qed.

(** The blue scoring on a small input. *)
Example blue_run_example :
  fst <$> blue_run (makeBlueBox zero) [of_Z 3; of_Z 1; of_Z 2]
  = Some [of_Z 24; of_Z 13; of_Z 13].
Proof. vm_compute. reflexivity. Qed.


(** C5. Turn selection: in every state that [play] reaches, the box that
    [takeTurn] lets absorb the token is one whose weight is smallest among
    all boxes, and the first such box in the order of the vector: every box
    before it is strictly heavier. *)
Theorem turn_selects_first_minimum (ws : list N) (w : N) (p : Player) :
  exists g,
    play_loop 0 ws initial = Some g /\
    let i := min_element (boxes g) in
    first_min (boxes g) i /\
    exists b s b',
      boxes g !! i = Some b /\
      takeTurn p w (boxes g) = Some (mkPlayer (add (score_ p) s), <[i := b']> (boxes g)) /\
      weight_ b' = add (weight_ b) (of_N w).
Proof.
  destruct (play_loop_boxes_wf 0 ws initial initial_boxes_wf)
    as (g & Hrun & Hlen & Hwf & Hgreen).
  exists g. split; [exact Hrun|]. split.
  - apply min_element_first_min; [intros E; rewrite E in Hlen; discriminate|].
    apply Box_wf_not_nan. exact Hwf.
  - destruct (takeTurn_boxes p w (boxes g) (conj Hlen (conj Hwf Hgreen)))
      as (b & s & b' & Hb & Ht & _ & Hw & _).
    exists b, s, b'. auto.
Qed.

(** C7. Degenerate input: on the empty sequence [play] takes no turn, leaves
    the game as it was set up, and returns the scores [(0.0, 0.0)], a result
    and not an error. *)
Theorem play_empty :
  play [] = Some (zero, zero) /\
  play_loop 0 [] initial = Some initial /\
  getScore (player_A initial) = zero /\ getScore (player_B initial) = zero.
Proof. repeat split. Qed.

(** C8. Score monotonicity: for every input sequence, both scores start at
    [0.0]; every turn adds a non-negative amount to the score of the acting
    player and leaves the other score alone, so that no score decreases; and
    [play] returns two non-negative scores. *)
Theorem score_monotone (ws : list N) :
  getScore Player_new = zero /\
  (exists a b, play ws = Some (a, b) /\ leb zero a = true /\ leb zero b = true) /\
  (forall k w, ws !! k = Some w ->
     exists g g' inc,
       play_loop 0 (take k ws) initial = Some g /\
       play_loop 0 (take (S k) ws) initial = Some g' /\
       turn k w g = Some g' /\
       leb zero inc = true /\
       (score_ (player_A g') = add (score_ (player_A g)) inc /\ player_B g' = player_B g \/
        score_ (player_B g') = add (score_ (player_B g)) inc /\ player_A g' = player_A g) /\
       leb (score_ (player_A g)) (score_ (player_A g')) = true /\
       leb (score_ (player_B g)) (score_ (player_B g')) = true).
Proof.
  split; [reflexivity|]. split.
  - destruct (play_loop_wf 0 ws initial initial_wf) as (g & Hrun & _ & _ & _ & [HA _] & [HB _]).
    exists (getScore (player_A g)), (getScore (player_B g)).
    unfold play. rewrite Hrun. split; [reflexivity|].
    split; apply nonneg_zero_le; assumption.
  - intros k w Hw. pose proof (lookup_lt_Some _ _ _ Hw) as Hk.
    destruct (play_loop_wf 0 (take k ws) initial initial_wf) as (g & Hrun & Hg).
    destruct (turn_spec k w g Hg) as (g' & inc & Hturn & Hg' & [Hinc _] & Hcases).
    exists g, g', inc. split; [exact Hrun|]. split.
    { rewrite (take_S_r _ _ _ Hw), play_loop_snoc, Hrun, length_take.
      replace (0 + Nat.min k (length ws))%nat with k by lia. exact Hturn. }
    split; [exact Hturn|]. split; [apply nonneg_zero_le; exact Hinc|].
    destruct Hg as (_ & _ & _ & [HA HA'] & [HB HB']).
    destruct Hcases as [(_ & HsA & HpB)|(_ & HsB & HpA)].
    + split; [left; auto|]. split.
      * rewrite HsA. apply add_le; assumption.
      * rewrite HpB. apply leb_refl. apply nonneg_not_nan. exact HB.
    + split; [right; auto|]. split.
      * rewrite HpA. apply leb_refl. apply nonneg_not_nan. exact HA.
      * rewrite HsB. apply add_le; assumption.
Qed.

(** C9. Blue-box buffer: after every absorption of a weight (none of them
    NaN) into a blue box the buffer is not empty, its first element is a
    smallest and its last element a largest of all the weights absorbed so
    far. *)
Theorem blue_buffer_invariant (w0 : double) (ws : list double) :
  ws <> [] -> not_nan ws ->
  exists ss b lo hi,
    blue_run (makeBlueBox w0) ws = Some (ss, b) /\
    absorbed_weights_ b <> [] /\
    front (absorbed_weights_ b) = Some lo /\ back (absorbed_weights_ b) = Some hi /\
    is_min lo ws /\ is_max hi ws.
Proof.
  intros Hne Hnn.
  destruct (blue_run_inv w0 ws Hnn)
    as (ss & b & Hrun & _ & [[E _]|(lo & hi & Hf & Hb & Hlo & Hhi & _)]); [congruence|].
  exists ss, b, lo, hi. split; [exact Hrun|]. split; [|auto].
  intros E. rewrite E in Hf. discriminate.
Qed.

Lemma blue_buffer_invariant_witness :
  [of_Z 3; of_Z 1; of_Z 2] <> [] /\ not_nan [of_Z 3; of_Z 1; of_Z 2] /\
  exists ss b lo hi,
    blue_run (makeBlueBox zero) [of_Z 3; of_Z 1; of_Z 2] = Some (ss, b) /\
    absorbed_weights_ b <> [] /\
    front (absorbed_weights_ b) = Some lo /\ back (absorbed_weights_ b) = Some hi /\
    is_min lo [of_Z 3; of_Z 1; of_Z 2] /\ is_max hi [of_Z 3; of_Z 1; of_Z 2].
Proof.
  assert (H1 : [of_Z 3; of_Z 1; of_Z 2] <> []) by discriminate.
  assert (H2 : not_nan [of_Z 3; of_Z 1; of_Z 2]) by (repeat constructor).
  split; [exact H1|]. split; [exact H2|].
  exact (blue_buffer_invariant zero [of_Z 3; of_Z 1; of_Z 2] H1 H2).
Defined.

(** Weights that do not grow, and selections that repeat. *)
Lemma strict_growth_fails :
  weight_ (calculateScoreForGreenBox (makeGreenBox zero) (of_N 0)).2
    = weight_ (makeGreenBox zero) /\
  ltb (weight_ (makeGreenBox zero))
      (weight_ (calculateScoreForGreenBox (makeGreenBox zero) (of_N 0)).2) = false /\
  (exists s b', calculateScoreForBlueBox (makeBlueBox d0_2) (of_N 0) = Some (s, b') /\
                ltb (weight_ (makeBlueBox d0_2)) (weight_ b') = false) /\
  (exists g, play_loop 0 [0%N] initial = Some g /\
             min_element (boxes initial) = 0%nat /\ min_element (boxes g) = 0%nat) /\
  ltb (weight_ (makeGreenBox (of_Z (2 ^ 53))))
      (weight_ (calculateScoreForGreenBox (makeGreenBox (of_Z (2 ^ 53))) (of_N 1)).2) = false /\
  (exists g3 g4, play_loop 0 [100; 100; 100]%N initial = Some g3 /\
                 play_loop 0 [100; 100; 100; 1]%N initial = Some g4 /\
                 min_element (boxes g3) = 3%nat /\ min_element (boxes g4) = 3%nat).
Proof.
  split; [reflexivity|]. split; [reflexivity|]. split; [|split; [|split]].
  - eexists _, _. split; [vm_compute; reflexivity|]. reflexivity.
  - eexists. split; [vm_compute; reflexivity|]. split; reflexivity.
  - vm_compute. reflexivity.
  - eexists _, _. split; [vm_compute; reflexivity|].
    split; [vm_compute; reflexivity|]. split; reflexivity.
Qed.

(** C6, amended.  Absorbing a token [t] into a box whose weight is neither
    negative nor NaN replaces the weight by the double sum [weight + t], with
    the green and with the blue scoring alike.  The weight never decreases;
    it stays the same when [t = 0]; and it strictly increases when
    [1 <= t < 2^32] and the weight is below [2^53]. *)
Theorem absorption_adds_token (b : Box) (t : N) :
  wf (weight_ b) ->
  let w' := add (weight_ b) (of_N t) in
  weight_ (calculateScoreForGreenBox b (of_N t)).2 = w' /\
  (exists s b', calculateScoreForBlueBox b (of_N t) = Some (s, b') /\ weight_ b' = w') /\
  leb (weight_ b) w' = true /\
  (t = 0%N -> w' = weight_ b) /\
  ((1 <= t < 2 ^ 32)%N -> ltb (weight_ b) (of_Z (2 ^ 53)) = true ->
   ltb (weight_ b) w' = true).
Proof.
  intros [Hn Hv] w'. split; [reflexivity|]. split; [|split; [|split]].
  - destruct (blue_step_total b (of_N t)) as (aw & lo & hi & Hup & Hf & Hb & _).
    rewrite (blue_score_spec b (of_N t) aw lo hi Hup Hf Hb).
    eexists _, _. split; reflexivity.
  - apply add_le; [exact Hn|exact Hv|apply of_N_nonneg].
  - intros ->. apply add_zero_r. exact Hn.
  - intros Ht Hlt. apply add_token_lt; try assumption.
    assert (2 ^ 32 < 2 ^ 53) by reflexivity.
    assert (Z.of_N (2 ^ 32) = 2 ^ 32) by reflexivity. lia.
Qed.

(** C10. The two factories build the same box: the given weight, an empty
    history and nothing else, a box being its weight and its history.  Which
    scoring a box gets is decided in [takeTurn] by the position of the
    selected box alone: the green scoring at positions 0 and 1, the blue
    scoring at every other position. *)
Theorem box_kind_is_positional :
  (forall w, makeGreenBox w = makeBlueBox w) /\
  (forall w, weight_ (makeGreenBox w) = w /\ absorbed_weights_ (makeGreenBox w) = [] /\
             weight_ (makeBlueBox w) = w /\ absorbed_weights_ (makeBlueBox w) = []) /\
  (forall b, b = mkBox (weight_ b) (absorbed_weights_ b)) /\
  (forall p t bs,
     let i := min_element bs in
     takeTurn p t bs =
     match bs !! i with
     | None => None
     | Some b =>
       if decide (i = 0 \/ i = 1)%nat then
         Some (mkPlayer (add (score_ p) (calculateScoreForGreenBox b (of_N t)).1),
               <[i := (calculateScoreForGreenBox b (of_N t)).2]> bs)
       else
         match calculateScoreForBlueBox b (of_N t) with
         | Some (s, b') => Some (mkPlayer (add (score_ p) s), <[i := b']> bs)
         | None => None
         end
     end).
Proof.
  split; [reflexivity|]. split; [intros w; repeat split|].
  split; [intros []; reflexivity|].
  intros p t bs i. unfold takeTurn. fold i.
  destruct (bs !! i) as [b|]; [|reflexivity].
  destruct (decide (i = 0 \/ i = 1)%nat) as [Hi|Hi].
  - assert (((i =? 0)%nat || (i =? 1)%nat) = true) as ->.
    { apply orb_true_iff. rewrite !Nat.eqb_eq. exact Hi. }
    destruct (calculateScoreForGreenBox b (of_N t)). reflexivity.
  - assert (((i =? 0)%nat || (i =? 1)%nat) = false) as ->.
    { apply orb_false_iff. rewrite !Nat.eqb_neq. tauto. }
    reflexivity.
Qed.

End Claims.

(** ** Exact arithmetic on small integers *)

Section Exact.

Lemma shr_1_even k :
  0 <= k -> shr_1 (Build_shr_record (2 * k) false false) = Build_shr_record k false false.
Proof. intros Hk. destruct k as [|p|p]; [reflexivity|reflexivity|lia]. Qed.

Lemma iter_pos_shr_1_exact p k :
  0 <= k ->
  SpecFloat.iter_pos shr_1 p (Build_shr_record (k * 2 ^ Zpos p) false false)
  = Build_shr_record k false false.
Proof.
  revert k. induction p as [p IH|p IH|]; intros k Hk; cbn [SpecFloat.iter_pos].
  - replace (k * 2 ^ Zpos p~1) with (2 * (k * 2 ^ Zpos p * 2 ^ Zpos p)).
    + pose proof (Z.pow_pos_nonneg 2 (Zpos p) ltac:(lia) ltac:(lia)).
      rewrite shr_1_even by nia. rewrite IH by nia. apply IH. exact Hk.
    + rewrite (Pos2Z.inj_xI p).
      replace (2 * Zpos p + 1) with (1 + Zpos p + Zpos p) by lia.
      rewrite !Z.pow_add_r by lia. lia.
  - replace (k * 2 ^ Zpos p~0) with (k * 2 ^ Zpos p * 2 ^ Zpos p).
    + pose proof (Z.pow_pos_nonneg 2 (Zpos p) ltac:(lia) ltac:(lia)).
      rewrite IH by nia. apply IH. exact Hk.
    + rewrite (Pos2Z.inj_xO p).
      replace (2 * Zpos p) with (Zpos p + Zpos p) by lia.
      rewrite !Z.pow_add_r by lia. lia.
  - replace (k * 2 ^ 1) with (2 * k) by lia. apply shr_1_even. exact Hk.
Qed.

Lemma Zdigits2_le_53 z : 0 < z < 2 ^ 53 -> 0 < Zdigits2 z <= 53.
Proof.
  intros [Hz Hlt]. split; [apply Zdigits2_pos; lia|].
  pose proof (pow2_le_digits z Hz) as Hlb.
  assert (Zdigits2 z - 1 < 53); [|lia].
  apply (Z.pow_lt_mono_r_iff 2); lia.
Qed.

Lemma of_Z_round z :
  0 < z < 2 ^ 53 ->
  of_Z z = round_result false (z * 2 ^ (53 - Zdigits2 z)) (Zdigits2 z - 53).
Proof.
  intros Hz. destruct (of_Z_exact z Hz) as (p & Hp & ->).
  pose proof (Zdigits2_le_53 z Hz). rewrite <- Hp. simpl.
  destruct (Zdigits2 z - 53 <=? emax - prec) eqn:E; [reflexivity|].
  apply Z.leb_gt in E. unfold emax, prec in E. lia.
Qed.

(** Rounding a representation [z * 2^j] at exponent [-j] of an integer
    [z] below [2^53], not coarser than the format: the result is [z]. *)
Lemma binary_round_aux_int z j :
  0 < z < 2 ^ 53 -> 0 <= j -> 53 - Zdigits2 z <= j ->
  binary_round_aux prec emax false (z * 2 ^ j) (- j) loc_Exact = of_Z z.
Proof.
  intros Hz Hj Hfine. pose proof (Zdigits2_le_53 z Hz) as Hd.
  rewrite (of_Z_round z Hz).
  set (m := z * 2 ^ (53 - Zdigits2 z)).
  assert (Hm : 0 < m).
  { unfold m. pose proof (Z.pow_pos_nonneg 2 (53 - Zdigits2 z) ltac:(lia) ltac:(lia)). nia. }
  assert (Hdm : Zdigits2 m = 53).
  { unfold m. rewrite Zdigits2_shiftl by lia. lia. }
  assert (Hsplit : z * 2 ^ j = m * 2 ^ (j - (53 - Zdigits2 z))).
  { unfold m. rewrite <- Z.mul_assoc, <- Z.pow_add_r by lia. f_equal. f_equal. lia. }
  unfold binary_round_aux, shr_fexp.
  rewrite Zdigits2_shiftl by lia.
  replace (Zdigits2 z + j + - j) with (Zdigits2 z) by lia.
  rewrite fexp_unfold.
  replace (Z.max (Zdigits2 z - 53) (-1074) - - j) with (j - (53 - Zdigits2 z)) by lia.
  rewrite Hsplit.
  assert (Hsecond : forall e, e = Zdigits2 z - 53 ->
    (let '(mrs'', e'') :=
       shr (shr_record_of_loc (round_nearest_even m loc_Exact) loc_Exact) e
           (fexp (Zdigits2 (round_nearest_even m loc_Exact) + e) - e) in
     match shr_m mrs'' with
     | 0 => S754_zero false
     | Zpos p => if e'' <=? emax - prec then S754_finite false p e'' else S754_infinity false
     | Zneg _ => S754_nan
     end) = round_result false m (Zdigits2 z - 53)).
  { intros e ->. simpl round_nearest_even. rewrite Hdm, fexp_unfold.
    replace (Z.max (53 + (Zdigits2 z - 53) - 53) (-1074) - (Zdigits2 z - 53)) with 0 by lia.
    reflexivity. }
  destruct (j - (53 - Zdigits2 z)) as [|p|p] eqn:E; try lia.
  - simpl shr. rewrite Z.mul_1_r.
    cbn [shr_record_of_loc shr_m shr_r shr_s loc_of_shr_record].
    apply Hsecond. lia.
  - simpl shr. cbn [shr_record_of_loc]. rewrite iter_pos_shr_1_exact by lia.
    cbn [shr_m shr_r shr_s loc_of_shr_record]. apply Hsecond. lia.
Qed.

Lemma binary_round_int z j M :
  0 < z < 2 ^ 53 -> 0 <= j -> Zpos M = z * 2 ^ j ->
  binary_round prec emax false M (- j) = of_Z z.
Proof.
  intros Hz Hj HM. pose proof (Zdigits2_le_53 z Hz) as Hd.
  unfold binary_round.
  destruct (shl_align_spec M (- j) (fexp (Zpos (digits2_pos M) + - j))) as [He Hm].
  destruct (shl_align M (- j) (fexp (Zpos (digits2_pos M) + - j))) as [mz ez].
  simpl in He, Hm. change (Zpos (digits2_pos M)) with (Zdigits2 (Zpos M)) in *.
  rewrite HM in He, Hm. rewrite Zdigits2_shiftl in He, Hm by lia.
  replace (Zdigits2 z + j + - j) with (Zdigits2 z) in He, Hm by lia.
  rewrite fexp_unfold in He, Hm.
  assert (Hj' : exists j', ez = - j' /\ 0 <= j' /\ 53 - Zdigits2 z <= j' /\ j <= j')
    by (exists (- ez); lia).
  destruct Hj' as (j' & -> & Hj0 & Hj1 & Hj2).
  replace (- j - Z.min (- j) (Z.max (Zdigits2 z - 53) (-1074))) with (j' - j) in Hm by lia.
  assert (Hmz : Zpos mz = z * 2 ^ j').
  { rewrite Hm, <- Z.mul_assoc, <- Z.pow_add_r by lia. f_equal. f_equal. lia. }
  rewrite Hmz. apply binary_round_aux_int; assumption.
Qed.

Lemma of_Z_mantissa z p :
  0 < z < 2 ^ 53 -> Zpos p = z * 2 ^ (53 - Zdigits2 z) ->
  forall e, e <= Zdigits2 z - 53 -> Zpos p * 2 ^ (Zdigits2 z - 53 - e) = z * 2 ^ (- e).
Proof.
  intros Hz Hp e He. pose proof (Zdigits2_le_53 z Hz).
  rewrite Hp, <- Z.mul_assoc, <- Z.pow_add_r by lia. f_equal. f_equal. lia.
Qed.

Lemma add_zero_l y : nonneg y = true -> add zero y = y.
Proof. destruct y as [[]|[]| |[] m e]; try discriminate; reflexivity. Qed.

Lemma mul_zero_l y : nonneg y = true -> y <> S754_infinity false -> mul zero y = zero.
Proof. destruct y as [[]|[]| |[] m e]; try discriminate; try reflexivity. congruence. Qed.

Lemma of_Z_finite z : 0 <= z < 2 ^ 53 -> of_Z z <> S754_infinity false.
Proof.
  intros Hz. destruct (Z.eq_dec z 0) as [->|]; [discriminate|].
  destruct (of_Z_exact z ltac:(lia)) as (p & _ & ->). discriminate.
Qed.

(** Sums of integers below [2^53] are exact. *)
Lemma add_int a b :
  0 <= a -> 0 <= b -> a + b < 2 ^ 53 -> add (of_Z a) (of_Z b) = of_Z (a + b).
Proof.
  intros Ha Hb Hab.
  destruct (Z.eq_dec a 0) as [->|Ha0].
  { rewrite Z.add_0_l. apply add_zero_l. apply of_Z_nonneg. exact Hb. }
  destruct (Z.eq_dec b 0) as [->|Hb0].
  { rewrite Z.add_0_r. apply add_zero_r. apply of_Z_nonneg. exact Ha. }
  destruct (of_Z_exact a ltac:(lia)) as (pa & Hpa & ->).
  destruct (of_Z_exact b ltac:(lia)) as (pb & Hpb & ->).
  pose proof (Zdigits2_le_53 a ltac:(lia)). pose proof (Zdigits2_le_53 b ltac:(lia)).
  unfold add, SFadd. cbn [cond_Zopp].
  set (ez := Z.min (Zdigits2 a - 53) (Zdigits2 b - 53)).
  destruct (shl_align_spec pa (Zdigits2 a - 53) ez) as [_ Ea].
  destruct (shl_align_spec pb (Zdigits2 b - 53) ez) as [_ Eb].
  replace (Z.min (Zdigits2 a - 53) ez) with ez in Ea by (unfold ez; lia).
  replace (Z.min (Zdigits2 b - 53) ez) with ez in Eb by (unfold ez; lia).
  rewrite (of_Z_mantissa a pa) in Ea by (unfold ez; lia).
  rewrite (of_Z_mantissa b pb) in Eb by (unfold ez; lia).
  set (a' := fst (shl_align pa (Zdigits2 a - 53) ez)) in *.
  set (b' := fst (shl_align pb (Zdigits2 b - 53) ez)) in *.
  change (Zpos a' + Zpos b') with (Zpos (a' + b')). cbn [binary_normalize].
  replace ez with (- (- ez)) at 1 by lia.
  apply binary_round_int; [lia|unfold ez; lia|].
  rewrite Pos2Z.inj_add, Ea, Eb. lia.
Qed.

(** Products of integers below [2^53] are exact. *)
Lemma mul_int a b :
  0 <= a < 2 ^ 53 -> 0 <= b < 2 ^ 53 -> a * b < 2 ^ 53 ->
  mul (of_Z a) (of_Z b) = of_Z (a * b).
Proof.
  intros [Ha Ha53] [Hb Hb53] Hab.
  destruct (Z.eq_dec a 0) as [->|Ha0].
  { rewrite Z.mul_0_l. apply mul_zero_l; [apply of_Z_nonneg; exact Hb|].
    apply of_Z_finite. lia. }
  destruct (Z.eq_dec b 0) as [->|Hb0].
  { rewrite Z.mul_0_r. destruct (of_Z_exact a ltac:(lia)) as (p & _ & ->). reflexivity. }
  assert (Ha' : 0 < a < 2 ^ 53) by lia. assert (Hb' : 0 < b < 2 ^ 53) by lia.
  destruct (of_Z_exact a Ha') as (pa & Hpa & ->).
  destruct (of_Z_exact b Hb') as (pb & Hpb & ->).
  pose proof (Zdigits2_le_53 a Ha'). pose proof (Zdigits2_le_53 b Hb').
  pose proof (Zdigits2_mul_ge a b ltac:(lia) ltac:(lia)) as Hd.
  unfold mul, SFmul. cbn [xorb].
  set (j := 106 - Zdigits2 a - Zdigits2 b).
  replace (Zdigits2 a - 53 + (Zdigits2 b - 53)) with (- j) by (unfold j; lia).
  replace (Zpos (pa * pb)) with (a * b * 2 ^ j).
  - apply binary_round_aux_int; [nia|unfold j; lia|unfold j; lia].
  - rewrite Pos2Z.inj_mul, Hpa, Hpb. unfold j.
    replace (106 - Zdigits2 a - Zdigits2 b) with ((53 - Zdigits2 a) + (53 - Zdigits2 b)) by lia.
    rewrite Z.pow_add_r by lia. ring.
Qed.

(** The square of an integer [m] with [m * m < 2^53] is a double, and
    [std::pow] returns it. *)
Lemma square_exact_int m : 0 <= m -> m * m < 2 ^ 53 -> square_exact (of_Z m) = true.
Proof.
  intros Hm Hmm.
  destruct (Z.eq_dec m 0) as [->|Hm0]; [reflexivity|].
  assert (Hm' : 0 < m < 2 ^ 53) by nia.
  assert (Hmm' : 0 < m * m < 2 ^ 53) by nia.
  pose proof (mul_int m m ltac:(lia) ltac:(lia) Hmm) as Hmul.
  destruct (of_Z_exact m Hm') as (p & Hp & E).
  destruct (of_Z_exact (m * m) Hmm') as (q & Hq & E2).
  pose proof (Zdigits2_le_53 m Hm') as Hd. pose proof (Zdigits2_le_53 (m * m) Hmm') as Hd2.
  rewrite E in Hmul |- *. unfold square_exact. rewrite Hmul, E2.
  apply Z.eqb_eq. rewrite Hp, Hq.
  set (d := Zdigits2 m) in *. set (d2 := Zdigits2 (m * m)) in *.
  destruct (Z.min_spec (d2 - 53) (2 * (d - 53))) as [[Hlt ->]|[Hle ->]].
  - rewrite Z.sub_diag, Z.mul_1_r.
    replace (m * 2 ^ (53 - d) * (m * 2 ^ (53 - d)))
      with (m * m * (2 ^ (53 - d) * 2 ^ (53 - d))) by ring.
    rewrite <- !Z.pow_add_r, <- !Z.mul_assoc, <- Z.pow_add_r by lia.
    do 3 f_equal. lia.
  - rewrite Z.sub_diag, Z.mul_1_r.
    replace (m * 2 ^ (53 - d) * (m * 2 ^ (53 - d)))
      with (m * m * (2 ^ (53 - d) * 2 ^ (53 - d))) by ring.
    rewrite <- !Z.pow_add_r, <- !Z.mul_assoc, <- Z.pow_add_r by lia.
    do 3 f_equal. lia.
Qed.

Lemma std_pow2_int m : 0 <= m -> m * m < 2 ^ 53 -> std_pow2 (of_Z m) = of_Z (m * m).
Proof.
  intros Hm Hmm. rewrite std_pow2_exact by (apply square_exact_int; assumption).
  apply mul_int; nia.
Qed.

Lemma Zdigits2_le_pow m k : 0 <= k -> 0 <= m < 2 ^ k -> Zdigits2 m <= k.
Proof.
  intros Hk [Hm Hlt]. destruct (Z.eq_dec m 0) as [->|]; [simpl; lia|].
  pose proof (pow2_le_digits m ltac:(lia)) as Hlb.
  pose proof (Zdigits2_pos m ltac:(lia)).
  assert (Zdigits2 m - 1 < k); [|lia].
  apply (Z.pow_lt_mono_r_iff 2); lia.
Qed.

Lemma Zdigits2_mul_le a b : 0 < a -> 0 < b -> Zdigits2 (a * b) <= Zdigits2 a + Zdigits2 b.
Proof.
  intros Ha Hb.
  pose proof (Zdigits2_pos a Ha). pose proof (Zdigits2_pos b Hb).
  pose proof (Zdigits2_bounds a Ha) as [_ Ha']. pose proof (Zdigits2_bounds b Hb) as [_ Hb'].
  apply Zdigits2_le_pow; [lia|]. rewrite Z.pow_add_r by lia. nia.
Qed.

(** Quotients of integers below [2^53] are exact when the division is. *)
Lemma div_int m n :
  0 <= m -> 0 < n < 2 ^ 53 -> m * n < 2 ^ 53 -> div (of_Z (m * n)) (of_Z n) = of_Z m.
Proof.
  intros Hm Hn' Hmn. assert (Hn : 0 < n) by lia.
  destruct (of_Z_exact n Hn') as (pn & Hpn & En).
  destruct (Z.eq_dec m 0) as [->|Hm0].
  { rewrite En. reflexivity. }
  assert (Hm' : 0 < m < 2 ^ 53) by nia.
  assert (Hmn' : 0 < m * n < 2 ^ 53) by nia.
  destruct (of_Z_exact (m * n) Hmn') as (pq & Hpq & ->). rewrite En.
  pose proof (Zdigits2_le_53 n Hn') as Hdn. pose proof (Zdigits2_le_53 m Hm') as Hdm.
  pose proof (Zdigits2_le_53 (m * n) Hmn') as Hdq.
  pose proof (Zdigits2_mul_le m n ltac:(lia) ltac:(lia)) as Hle.
  pose proof (Zdigits2_mul_ge m n ltac:(lia) ltac:(lia)) as Hge.
  assert (Hdpq : Zdigits2 (Zpos pq) = 53) by (rewrite Hpq, Zdigits2_shiftl; lia).
  assert (Hdpn : Zdigits2 (Zpos pn) = 53) by (rewrite Hpn, Zdigits2_shiftl; lia).
  set (J := 53 - Zdigits2 (m * n) + Zdigits2 n).
  assert (Hcore : SFdiv_core_binary prec emax (Zpos pq) (Zdigits2 (m * n) - 53)
                    (Zpos pn) (Zdigits2 n - 53) = (m * 2 ^ J, - J, loc_Exact)).
  { unfold SFdiv_core_binary. rewrite Hdpq, Hdpn, fexp_unfold.
    replace (Z.min (Z.max (53 + (Zdigits2 (m * n) - 53) - (53 + (Zdigits2 n - 53)) - 53) (-1074))
                   (Zdigits2 (m * n) - 53 - (Zdigits2 n - 53))) with (- J) by (unfold J; lia).
    replace (Zdigits2 (m * n) - 53 - (Zdigits2 n - 53) - - J) with 53 by (unfold J; lia).
    cbv iota. rewrite Z.shiftl_mul_pow2 by lia.
    assert (Heq : Zpos pq * 2 ^ 53 = Zpos pn * (m * 2 ^ J)).
    { rewrite Hpq, Hpn. unfold J.
      replace (53 - Zdigits2 (m * n) + Zdigits2 n)
        with ((53 - Zdigits2 (m * n)) + (53 - (53 - Zdigits2 n))) by lia.
      rewrite (Z.pow_add_r 2 (53 - Zdigits2 (m * n))) by lia.
      replace (2 ^ 53) with (2 ^ (53 - Zdigits2 n) * 2 ^ (53 - (53 - Zdigits2 n))) at 1
        by (rewrite <- Z.pow_add_r by lia; f_equal; lia).
      ring. }
    assert (Hq : Z.div_eucl (Zpos pq * 2 ^ 53) (Zpos pn)
                 = ((Zpos pq * 2 ^ 53) / Zpos pn, (Zpos pq * 2 ^ 53) mod Zpos pn)).
    { unfold Z.div, Z.modulo. destruct (Z.div_eucl _ _). reflexivity. }
    rewrite Hq, Heq.
    rewrite (Z.mul_comm (Zpos pn)), Z.div_mul, Z.mod_mul by lia.
    f_equal. unfold new_location, new_location_even, new_location_odd.
    destruct (Z.even (Zpos pn)); reflexivity. }
  unfold div, SFdiv. rewrite Hcore. cbn [xorb].
  apply binary_round_aux_int; [lia|unfold J; lia|unfold J; lia].
Qed.

Lemma of_Z_inj a b :
  0 <= a < 2 ^ 53 -> 0 <= b < 2 ^ 53 -> of_Z a = of_Z b -> a = b.
Proof.
  intros Ha Hb E.
  destruct (Z.eq_dec a 0) as [->|Ha0], (Z.eq_dec b 0) as [->|Hb0]; try reflexivity.
  - destruct (of_Z_exact b ltac:(lia)) as (p & _ & E'). rewrite E' in E. discriminate.
  - destruct (of_Z_exact a ltac:(lia)) as (p & _ & E'). rewrite E' in E. discriminate.
  - destruct (of_Z_exact a ltac:(lia)) as (pa & Hpa & Ea).
    destruct (of_Z_exact b ltac:(lia)) as (pb & Hpb & Eb).
    rewrite Ea, Eb in E. injection E as Ep Ed.
    assert (Hd : Zdigits2 a = Zdigits2 b) by lia.
    rewrite Ep, Hd in Hpa. rewrite Hpa in Hpb.
    pose proof (Zdigits2_le_53 b ltac:(lia)).
    pose proof (Z.pow_pos_nonneg 2 (53 - Zdigits2 b) ltac:(lia) ltac:(lia)). nia.
Qed.

End Exact.

(** ** More on the blue buffer *)

Section BlueBuffer.

Lemma increasing_snoc l w :
  increasing l -> Forall (fun x => ltb x w = true) l -> increasing (l ++ [w]).
Proof.
  unfold increasing. induction l as [|x l IH]; intros Hs Hall; simpl.
  - constructor; constructor.
  - apply StronglySorted_inv in Hs. destruct Hs as [Hs Hx].
    apply Forall_cons in Hall. destruct Hall as [Hxw Hall].
    constructor; [apply IH; assumption|].
    apply Forall_app_2; [exact Hx|]. apply Forall_singleton. exact Hxw.
Qed.

Lemma increasing_below_last l z :
  increasing l -> last l = Some z ->
  Forall (fun x => x = z \/ ltb x z = true) l.
Proof.
  unfold increasing. induction l as [|x l IH]; intros Hs Hl; [constructor|].
  apply StronglySorted_inv in Hs. destruct Hs as [Hs Hx].
  destruct l as [|y l'].
  - injection Hl as <-. constructor; [left; reflexivity|constructor].
  - rewrite last_cons_cons in Hl. specialize (IH Hs Hl).
    constructor; [|exact IH]. right.
    assert (Hz : In z (y :: l')) by (apply back_In; exact Hl).
    rewrite Forall_forall in Hx. apply Hx. apply list_elem_of_In. exact Hz.
Qed.

(** One update keeps the buffer strictly increasing and adds at most the
    new weight. *)
Lemma blue_update_increasing aw w aw' :
  increasing aw -> blue_update aw w = Some aw' ->
  increasing aw' /\ (forall x, In x aw' -> In x aw \/ x = w) /\
  (length aw' <= S (length aw))%nat /\ aw' <> [].
Proof.
  intros Hs Hup.
  destruct (blue_update_cases aw w) as [[-> E]|(f & l & Hf & Hb & E)];
    rewrite E in Hup; injection Hup as <-.
  - split; [constructor; constructor|]. split; [|split; [simpl; lia|discriminate]].
    intros x [<-|[]]. right. reflexivity.
  - destruct (ltb w f) eqn:E1; [|destruct (ltb l w) eqn:E2].
    + split; [|split; [|split; [simpl; lia|discriminate]]].
      * destruct aw as [|f' rest]; [discriminate|]. injection Hf as ->.
        pose proof Hs as Hs'. apply StronglySorted_inv in Hs'. destruct Hs' as [_ Hx].
        constructor; [exact Hs|]. constructor; [exact E1|].
        eapply Forall_impl; [exact Hx|]. intros x Hfx. simpl in Hfx.
        eapply ltb_trans; eassumption.
      * intros x [<-|Hx]; [right; reflexivity|left; exact Hx].
    + split; [|split; [|split]].
      * apply increasing_snoc; [exact Hs|].
        eapply Forall_impl; [apply (increasing_below_last aw l Hs Hb)|].
        intros x [->|Hx]; [exact E2|]. simpl. eapply ltb_trans; eassumption.
      * intros x Hx. apply in_app_or in Hx. destruct Hx as [Hx|[<-|[]]]; auto.
      * rewrite length_app. simpl. lia.
      * destruct aw; discriminate.
    + split; [exact Hs|]. split; [auto|]. split; [lia|].
      destruct aw; discriminate.
Qed.

End BlueBuffer.

(** ** Further properties of the code *)

Section Further.

(** X1. The blue scoring never reads from an empty deque: on every box and
    every weight, NaN included, it returns a score, leaves a non-empty
    buffer, and the score is the pairing of the front and the back of that
    buffer. *)
Theorem blue_never_undefined (b : Box) (w : double) :
  exists s b' lo hi,
    calculateScoreForBlueBox b w = Some (s, b') /\
    absorbed_weights_ b' <> [] /\
    front (absorbed_weights_ b') = Some lo /\ back (absorbed_weights_ b') = Some hi /\
    s = pairing lo hi.
Proof.
  destruct (blue_step_total b w) as (aw & lo & hi & Hup & Hf & Hb & _).
  rewrite (blue_score_spec b w aw lo hi Hup Hf Hb).
  eexists _, _, lo, hi. split; [reflexivity|]. simpl.
  split; [intros E; rewrite E in Hf; discriminate|]. auto.
Qed.

Lemma blue_update_growth aw w aw' :
  increasing aw -> blue_update aw w = Some aw' ->
  (aw = [] /\ aw' = [w]) \/
  aw' = aw \/
  (aw' = w :: aw /\ Forall (fun x => ltb w x = true) aw) \/
  (aw' = aw ++ [w] /\ Forall (fun x => ltb x w = true) aw).
Proof.
  intros Hs Hup.
  destruct (blue_update_cases aw w) as [[-> E]|(f & l & Hf & Hb & E)];
    rewrite E in Hup; injection Hup as <-; [left; auto|right].
  destruct (ltb w f) eqn:E1; [|destruct (ltb l w) eqn:E2]; [right; left|right; right|left; reflexivity].
  - split; [reflexivity|].
    destruct aw as [|f' rest]; [discriminate|]. injection Hf as ->.
    apply StronglySorted_inv in Hs. destruct Hs as [_ Hx].
    constructor; [exact E1|].
    eapply Forall_impl; [exact Hx|]. intros x Hfx. simpl in Hfx.
    eapply ltb_trans; eassumption.
  - split; [reflexivity|].
    eapply Forall_impl; [apply (increasing_below_last aw l Hs Hb)|].
    intros x [->|Hx]; [exact E2|]. simpl. eapply ltb_trans; eassumption.
Qed.

Lemma blue_run_increasing w0 ws :
  exists ss b,
    blue_run (makeBlueBox w0) ws = Some (ss, b) /\
    length ss = length ws /\
    increasing (absorbed_weights_ b) /\
    (forall x, In x (absorbed_weights_ b) -> In x ws) /\
    (length (absorbed_weights_ b) <= length ws)%nat /\
    (ws <> [] -> absorbed_weights_ b <> []).
Proof.
  induction ws as [|w ws IH] using rev_ind.
  - exists [], (makeBlueBox w0). split; [reflexivity|]. split; [reflexivity|].
    split; [constructor|]. split; [intros x Hx; destruct Hx|].
    split; [simpl; lia|congruence].
  - destruct IH as (ss & b & Hrun & Hlen & Hs & Hin & Hl & _).
    destruct (blue_step_total b w) as (aw & lo & hi & Hup & Hf & Hb & _).
    destruct (blue_update_increasing _ w aw Hs Hup) as (Hs' & Hin' & Hl' & Hne).
    rewrite blue_run_snoc, Hrun, (blue_score_spec b w aw lo hi Hup Hf Hb).
    eexists _, _. split; [reflexivity|]. simpl.
    split; [rewrite !length_app, Hlen; reflexivity|]. split; [exact Hs'|].
    split; [|split; [|intros _; exact Hne]].
    + intros x Hx. apply in_or_app. destruct (Hin' x Hx) as [H| ->].
      * left. apply Hin. exact H.
      * right. left. reflexivity.
    + rewrite length_app. simpl. lia.
Qed.

(** X2. The buffer of a blue box is strictly increasing from front to back,
    whatever weights were absorbed (NaN included); it holds absorbed weights
    only and no more of them than were absorbed.  One more absorption of a
    weight [w] leaves the buffer as it is, or puts [w] in front of a buffer
    whose elements are all strictly larger, or behind a buffer whose elements
    are all strictly smaller; the first weight becomes the only element.  So
    the buffer grows only on a new smallest or a new largest weight: if no
    weight is NaN and the buffer changes, [w] is strictly smaller than every
    weight absorbed before it, or strictly larger than every one of them. *)
Theorem blue_buffer_increasing (w0 : double) (ws : list double) (w : double) :
  exists ss b s b',
    blue_run (makeBlueBox w0) ws = Some (ss, b) /\
    blue_run (makeBlueBox w0) (ws ++ [w]) = Some (ss ++ [s], b') /\
    length ss = length ws /\
    increasing (absorbed_weights_ b) /\ increasing (absorbed_weights_ b') /\
    (forall x, In x (absorbed_weights_ b) -> In x ws) /\
    (length (absorbed_weights_ b) <= length ws)%nat /\
    ((ws = [] /\ absorbed_weights_ b = [] /\ absorbed_weights_ b' = [w]) \/
     absorbed_weights_ b' = absorbed_weights_ b \/
     (absorbed_weights_ b' = w :: absorbed_weights_ b /\
      Forall (fun x => ltb w x = true) (absorbed_weights_ b)) \/
     (absorbed_weights_ b' = absorbed_weights_ b ++ [w] /\
      Forall (fun x => ltb x w = true) (absorbed_weights_ b))) /\
    (not_nan ws -> absorbed_weights_ b' <> absorbed_weights_ b ->
     Forall (fun x => ltb w x = true) ws \/ Forall (fun x => ltb x w = true) ws).
Proof.
  destruct (blue_run_increasing w0 ws) as (ss & b & Hrun & Hlen & Hs & Hin & Hl & Hne).
  destruct (blue_step_total b w) as (aw & lo & hi & Hup & Hf & Hb & _).
  destruct (blue_update_increasing _ w aw Hs Hup) as (Hs' & _).
  pose proof (blue_update_growth _ w aw Hs Hup) as Hgrow.
  exists ss, b, (pairing lo hi), (mkBox (add (weight_ b) w) aw).
  split; [exact Hrun|]. split.
  { rewrite blue_run_snoc, Hrun, (blue_score_spec b w aw lo hi Hup Hf Hb). reflexivity. }
  split; [exact Hlen|]. split; [exact Hs|]. split; [exact Hs'|].
  split; [exact Hin|]. split; [exact Hl|]. cbn [absorbed_weights_]. split.
  - destruct Hgrow as [[E ->]|[->|[[-> H]|[-> H]]]]; [left|right; left|right; right; left|right; right; right]; auto.
    split; [|auto]. destruct ws as [|x ws]; [reflexivity|exfalso].
    apply Hne; [discriminate|exact E].
  - intros Hnn Hch.
    destruct (blue_run_inv w0 ws Hnn)
      as (ss2 & b2 & Hrun2 & _ & [[-> _]|(lo' & hi' & Hf' & Hb' & Hlo & Hhi & _)]);
      [left; constructor|].
    rewrite Hrun in Hrun2. injection Hrun2 as <- <-.
    destruct Hgrow as [[E _]|[E|[[_ H]|[_ H]]]].
    + rewrite E in Hf'. discriminate.
    + congruence.
    + left. apply Forall_forall. intros x Hx. apply list_elem_of_In in Hx.
      apply (ltb_leb_trans w lo' x); [|apply Hlo; exact Hx].
      apply (Forall_In (fun x => ltb w x = true) _ _ H). apply front_In. exact Hf'.
    + right. apply Forall_forall. intros x Hx. apply list_elem_of_In in Hx.
      apply (leb_ltb_trans x hi' w); [apply Hhi; exact Hx|].
      apply (Forall_In (fun x => ltb x w = true) _ _ H). apply back_In. exact Hb'.
Qed.

Lemma leb_antisym x y :
  nonneg x = true -> nonneg y = true -> leb x y = true -> leb y x = true -> x = y.
Proof.
  destruct x as [[]|[]| |[] mx ex], y as [[]|[]| |[] my ey]; try discriminate;
    try reflexivity. intros _ _ H1 H2.
  apply leb_finite in H1. apply leb_finite in H2.
  assert (ex = ey) by lia. assert (Zpos mx = Zpos my) by lia. congruence.
Qed.

Lemma nonneg_list_not_nan l : Forall (fun w => nonneg w = true) l -> not_nan l.
Proof. intros H. eapply Forall_impl; [exact H|]. intros w. apply nonneg_not_nan. Qed.

(** X3. The score a blue box returns depends on which non-negative weights
    it has absorbed, not on their order: two fresh blue boxes that absorb
    permutations of the same weights return the same last score. *)
Theorem blue_score_permutation (w1 w2 : double) (ws1 ws2 : list double) :
  Permutation ws1 ws2 -> ws1 <> [] ->
  Forall (fun w => nonneg w = true) ws1 ->
  exists ss1 b1 ss2 b2 s,
    blue_run (makeBlueBox w1) ws1 = Some (ss1, b1) /\
    blue_run (makeBlueBox w2) ws2 = Some (ss2, b2) /\
    last ss1 = Some s /\ last ss2 = Some s.
Proof.
  intros Hp Hne Hnn.
  assert (Hnn2 : Forall (fun w => nonneg w = true) ws2).
  { rewrite Forall_forall in *. intros x Hx. apply Hnn. rewrite Hp. exact Hx. }
  assert (Hne2 : ws2 <> []).
  { intros ->. apply Permutation_nil_r in Hp. contradiction. }
  destruct (blue_run_inv w1 ws1 (nonneg_list_not_nan _ Hnn))
    as (ss1 & b1 & Hr1 & _ & [[E _]|(lo1 & hi1 & _ & _ & Hlo1 & Hhi1 & Hs1)]); [contradiction|].
  destruct (blue_run_inv w2 ws2 (nonneg_list_not_nan _ Hnn2))
    as (ss2 & b2 & Hr2 & _ & [[E _]|(lo2 & hi2 & _ & _ & Hlo2 & Hhi2 & Hs2)]); [contradiction|].
  exists ss1, b1, ss2, b2, (pairing lo1 hi1).
  split; [exact Hr1|]. split; [exact Hr2|]. split; [exact Hs1|].
  destruct Hlo1 as [Hin1 Hle1], Hlo2 as [Hin2 Hle2], Hhi1 as [Hin3 Hle3], Hhi2 as [Hin4 Hle4].
  assert (Hto : forall x, In x ws1 -> In x ws2) by (intros x; apply Permutation_in; exact Hp).
  assert (Hfrom : forall x, In x ws2 -> In x ws1)
    by (intros x; apply Permutation_in; symmetry; exact Hp).
  assert (lo1 = lo2) as <-.
  { apply leb_antisym; auto.
    - exact (Forall_In (fun w => nonneg w = true) ws1 lo1 Hnn Hin1).
    - exact (Forall_In (fun w => nonneg w = true) ws2 lo2 Hnn2 Hin2). }
  assert (hi1 = hi2) as <-.
  { apply leb_antisym; auto.
    - exact (Forall_In (fun w => nonneg w = true) ws1 hi1 Hnn Hin3).
    - exact (Forall_In (fun w => nonneg w = true) ws2 hi2 Hnn2 Hin4). }
  exact Hs2.
Qed.

Lemma blue_score_permutation_witness :
  Permutation [of_Z 3; of_Z 1; of_Z 2] [of_Z 2; of_Z 3; of_Z 1] /\
  [of_Z 3; of_Z 1; of_Z 2] <> [] /\
  Forall (fun w => nonneg w = true) [of_Z 3; of_Z 1; of_Z 2] /\
  exists ss1 b1 ss2 b2 s,
    blue_run (makeBlueBox zero) [of_Z 3; of_Z 1; of_Z 2] = Some (ss1, b1) /\
    blue_run (makeBlueBox zero) [of_Z 2; of_Z 3; of_Z 1] = Some (ss2, b2) /\
    last ss1 = Some s /\ last ss2 = Some s.
Proof.
  assert (H1 : Permutation [of_Z 3; of_Z 1; of_Z 2] [of_Z 2; of_Z 3; of_Z 1]).
  { apply (Permutation_cons_app [of_Z 2] [of_Z 1] (of_Z 3)). apply perm_swap. }
  assert (H2 : [of_Z 3; of_Z 1; of_Z 2] <> []) by discriminate.
  assert (H3 : Forall (fun w => nonneg w = true) [of_Z 3; of_Z 1; of_Z 2])
    by (repeat constructor).
  split; [exact H1|]. split; [exact H2|]. split; [exact H3|].
  exact (blue_score_permutation zero zero _ _ H1 H2 H3).
Defined.

Lemma blue_never_undefined_aux b w :
  exists s b', calculateScoreForBlueBox b w = Some (s, b').
Proof.
  destruct (blue_step_total b w) as (aw & lo & hi & Hup & Hf & Hb & _).
  rewrite (blue_score_spec b w aw lo hi Hup Hf Hb). eexists _, _. reflexivity.
Qed.

Lemma takeTurn_cases p t bs :
  bs <> [] ->
  let i := min_element bs in
  exists b, bs !! i = Some b /\
    ((i < 2)%nat /\
       takeTurn p t bs =
       Some (mkPlayer (add (score_ p) (calculateScoreForGreenBox b (of_N t)).1),
             <[i := (calculateScoreForGreenBox b (of_N t)).2]> bs) \/
     (2 <= i)%nat /\
       exists s b', calculateScoreForBlueBox b (of_N t) = Some (s, b') /\
         takeTurn p t bs = Some (mkPlayer (add (score_ p) s), <[i := b']> bs)).
Proof.
  intros Hne i. pose proof (min_element_lt bs Hne) as Hi. fold i in Hi.
  destruct (lookup_lt_is_Some_2 bs i Hi) as [b Hb].
  exists b. split; [exact Hb|]. unfold takeTurn. fold i. rewrite Hb.
  destruct ((i =? 0)%nat || (i =? 1)%nat) eqn:E.
  - left. apply orb_true_iff in E. rewrite !Nat.eqb_eq in E. split; [lia|].
    destruct (calculateScoreForGreenBox b (of_N t)). reflexivity.
  - right. apply orb_false_iff in E. rewrite !Nat.eqb_neq in E. split; [lia|].
    destruct (blue_never_undefined_aux b (of_N t)) as (s & b' & ->).
    exists s, b'. split; reflexivity.
Qed.

(** X4. [takeTurn] dereferences the end iterator exactly when the vector of
    boxes is empty.  On a non-empty vector, whatever the boxes hold, it
    returns; the vector keeps its length, every box but the selected one is
    untouched, and the selected box has the token added to its weight. *)
Theorem takeTurn_defined (p : Player) (t : N) (bs : list Box) :
  (bs = [] -> takeTurn p t bs = None) /\
  (bs <> [] ->
   exists p' bs' b b',
     takeTurn p t bs = Some (p', bs') /\
     length bs' = length bs /\
     (forall j, j <> min_element bs -> bs' !! j = bs !! j) /\
     bs !! min_element bs = Some b /\ bs' !! min_element bs = Some b' /\
     weight_ b' = add (weight_ b) (of_N t)).
Proof.
  split; [intros ->; reflexivity|]. intros Hne.
  pose proof (min_element_lt bs Hne) as Hi.
  destruct (takeTurn_cases p t bs Hne) as (b & Hb & [(_ & ->)|(_ & s & b' & Hs & ->)]).
  - eexists _, _, b, _. split; [reflexivity|].
    split; [apply length_insert|].
    split; [intros j Hj; apply list_lookup_insert_ne; congruence|].
    split; [exact Hb|]. split; [apply list_lookup_insert_eq; exact Hi|reflexivity].
  - eexists _, _, b, b'. split; [reflexivity|].
    split; [apply length_insert|].
    split; [intros j Hj; apply list_lookup_insert_ne; congruence|].
    split; [exact Hb|]. split; [apply list_lookup_insert_eq; exact Hi|].
    unfold calculateScoreForBlueBox in Hs.
    destruct (blue_update _ _) as [aw|]; [|discriminate].
    destruct (front aw); [|discriminate]. destruct (back aw); [|discriminate].
    injection Hs as _ <-. reflexivity.
Qed.

Lemma ltb_nan_r x y : is_nan y = true -> ltb x y = false.
Proof.
  destruct y; try discriminate. intros _.
  destruct x as [[]|[]| |[] m e]; reflexivity.
Qed.

Lemma ltb_true_not_nan x y : ltb x y = true -> is_nan x = false.
Proof. destruct x; try reflexivity. discriminate. Qed.

Lemma min_element_from_nan rest i sm sb :
  is_nan (weight_ sb) = true -> min_element_from rest i sm sb = sm.
Proof.
  intros Hn. revert i. induction rest as [|b rest IH]; intros i; simpl; [reflexivity|].
  unfold Box_lt. rewrite (ltb_nan_r _ _ Hn). apply IH.
Qed.

Lemma min_element_from_not_nan pre rest sm sb :
  pre !! sm = Some sb ->
  (sm = 0%nat \/ is_nan (weight_ sb) = false) ->
  let r := min_element_from rest (length pre) sm sb in
  r = 0%nat \/ exists br, (pre ++ rest) !! r = Some br /\ is_nan (weight_ br) = false.
Proof.
  revert pre sm sb. induction rest as [|b rest IH]; intros pre sm sb Hsb Hcase; simpl.
  - destruct Hcase as [->|Hn]; [left; reflexivity|right].
    exists sb. rewrite app_nil_r. auto.
  - pose proof (lookup_lt_Some _ _ _ Hsb) as Hsm.
    replace (pre ++ b :: rest) with ((pre ++ [b]) ++ rest)
      by (rewrite <- app_assoc; reflexivity).
    replace (S (length pre)) with (length (pre ++ [b]))
      by (rewrite length_app; simpl; lia).
    unfold Box_lt. destruct (ltb (weight_ b) (weight_ sb)) eqn:E; apply IH.
    + rewrite lookup_app_r by lia. rewrite Nat.sub_diag. reflexivity.
    + right. eapply ltb_true_not_nan. exact E.
    + rewrite lookup_app_l by lia. exact Hsb.
    + exact Hcase.
Qed.

(** X5. Boxes whose weight is NaN: a NaN weight compares neither smaller nor
    larger than any weight; if the first box has a NaN weight it is the one
    selected, whatever the others weigh; and no box after the first is ever
    selected while its weight is NaN. *)
Theorem min_element_nan (bs : list Box) :
  (forall a b, is_nan (weight_ a) = true -> Box_lt a b = false /\ Box_lt b a = false) /\
  (forall b rest, bs = b :: rest -> is_nan (weight_ b) = true -> min_element bs = 0%nat) /\
  (forall bj, bs !! min_element bs = Some bj -> is_nan (weight_ bj) = true ->
              min_element bs = 0%nat).
Proof.
  split; [|split].
  - intros a b Hn. unfold Box_lt. split; [|apply ltb_nan_r; exact Hn].
    destruct (weight_ a); try discriminate. reflexivity.
  - intros b rest -> Hn. simpl. apply min_element_from_nan. exact Hn.
  - intros bj Hj Hn. destruct bs as [|b rest]; [reflexivity|].
    destruct (min_element_from_not_nan [b] rest 0 b eq_refl (or_introl eq_refl))
      as [H|(br & Hbr & Hnn)]; [exact H|].
    simpl in Hj, Hbr. simpl. rewrite Hbr in Hj. injection Hj as ->. congruence.
Qed.

Lemma min_element_nan_witness :
  min_element [mkBox S754_nan []; makeGreenBox zero; makeBlueBox d0_1] = 0%nat.
Proof.
  exact (proj1 (proj2 (min_element_nan [mkBox S754_nan []; makeGreenBox zero; makeBlueBox d0_1]))
           (mkBox S754_nan []) [makeGreenBox zero; makeBlueBox d0_1] eq_refl eq_refl).
Defined.

(** X6. [Box::operator<] is a strict weak ordering on boxes whose weights
    are not NaN, as [std::min_element] asks of its comparison: it is
    irreflexive and transitive, and so is "neither is smaller". *)
Theorem Box_lt_strict_weak_order (a b c : Box) :
  is_nan (weight_ a) = false -> is_nan (weight_ b) = false ->
  is_nan (weight_ c) = false ->
  Box_lt a a = false /\
  (Box_lt a b = true -> Box_lt b a = false) /\
  (Box_lt a b = true -> Box_lt b c = true -> Box_lt a c = true) /\
  (Box_lt a b = false -> Box_lt b c = false -> Box_lt a c = false).
Proof.
  intros Ha Hb Hc. unfold Box_lt.
  split; [apply ltb_irrefl|]. split; [apply ltb_asym|]. split; [apply ltb_trans|].
  intros H1 H2. apply leb_not_ltb.
  apply leb_trans with (weight_ b); apply leb_total; assumption.
Qed.

Lemma Box_lt_strict_weak_order_witness :
  is_nan (weight_ (makeGreenBox zero)) = false /\
  is_nan (weight_ (makeGreenBox d0_1)) = false /\
  is_nan (weight_ (makeBlueBox d0_2)) = false /\
  Box_lt (makeGreenBox zero) (makeBlueBox d0_2) = true.
Proof.
  assert (H1 : is_nan (weight_ (makeGreenBox zero)) = false) by reflexivity.
  assert (H2 : is_nan (weight_ (makeGreenBox d0_1)) = false) by reflexivity.
  assert (H3 : is_nan (weight_ (makeBlueBox d0_2)) = false) by reflexivity.
  split; [exact H1|]. split; [exact H2|]. split; [exact H3|].
  exact (proj1 (proj2 (proj2 (Box_lt_strict_weak_order _ _ _ H1 H2 H3))) eq_refl eq_refl).
Defined.

Lemma cantor_double a b : 2 * cantor a b = (a + b) * (a + b + 1) + 2 * b.
Proof.
  unfold cantor. set (s := a + b).
  assert (Hs : exists m, s * (s + 1) = m * 2).
  { destruct (Z.Even_or_Odd s) as [[k Hk]|[k Hk]].
    - exists (k * (s + 1)). lia.
    - exists (s * (k + 1)). lia. }
  destruct Hs as [m ->]. rewrite Z.div_mul by lia. lia.
Qed.

Lemma cantor_inj a b c d :
  0 <= a -> 0 <= b -> 0 <= c -> 0 <= d -> cantor a b = cantor c d -> a = c /\ b = d.
Proof.
  intros Ha Hb Hc Hd E.
  pose proof (cantor_double a b) as H1. pose proof (cantor_double c d) as H2.
  rewrite E in H1. assert (a + b = c + d) by nia. nia.
Qed.

Lemma cantor_bound a b :
  0 <= a -> 0 <= b -> (a + b) * (a + b + 1) < 2 ^ 53 -> 0 <= cantor a b < 2 ^ 53.
Proof.
  intros Ha Hb Hlt. pose proof (cantor_double a b). nia.
Qed.

Lemma pairing_int a b :
  0 <= a -> 0 <= b -> (a + b) * (a + b + 1) < 2 ^ 53 ->
  pairing (of_Z a) (of_Z b) = of_Z (cantor a b).
Proof.
  intros Ha Hb Hlt. unfold pairing.
  pose proof (cantor_double a b) as Hc. unfold cantor in *.
  set (s := a + b) in *.
  assert (Hs : s * (s + 1) = (s * (s + 1) / 2) * 2) by lia.
  set (T := s * (s + 1) / 2) in *.
  rewrite (add_int a b) by nia. fold s.
  rewrite (add_int s 1) by nia.
  rewrite (mul_int s (s + 1)) by nia.
  rewrite Hs. rewrite (div_int T 2) by nia.
  apply add_int; nia.
Qed.

(** X7. The source's pairing expression [(sum * (sum + 1)) / 2 + largest],
    evaluated in doubles, is Cantor's pairing function on integers without
    any rounding as long as [(lo + hi) * (lo + hi + 1)] stays below [2^53];
    on those arguments it is therefore injective: different pairs of
    integers give different scores. *)
Theorem pairing_exact (a b c d : Z) :
  0 <= a -> 0 <= b -> (a + b) * (a + b + 1) < 2 ^ 53 ->
  0 <= c -> 0 <= d -> (c + d) * (c + d + 1) < 2 ^ 53 ->
  pairing (of_Z a) (of_Z b) = of_Z (cantor a b) /\
  (pairing (of_Z a) (of_Z b) = pairing (of_Z c) (of_Z d) -> a = c /\ b = d).
Proof.
  intros Ha Hb Hab Hc Hd Hcd. split; [apply pairing_int; assumption|].
  rewrite !pairing_int by assumption. intros E.
  apply of_Z_inj in E; [|apply cantor_bound; assumption..].
  apply cantor_inj; assumption.
Qed.

Lemma pairing_exact_witness :
  pairing (of_Z 3) (of_Z 5) = of_Z (cantor 3 5) /\
  (pairing (of_Z 3) (of_Z 5) = pairing (of_Z 5) (of_Z 3) -> 3 = 5 /\ 5 = 3).
Proof.
  exact (pairing_exact 3 5 5 3 ltac:(discriminate) ltac:(discriminate) eq_refl
                       ltac:(discriminate) ltac:(discriminate) eq_refl).
Defined.

Lemma of_Z_le_reflect a b :
  0 <= a < 2 ^ 53 -> 0 <= b < 2 ^ 53 -> leb (of_Z a) (of_Z b) = true -> a <= b.
Proof.
  intros Ha Hb H.
  destruct (Z.eq_dec a 0) as [->|Ha0]; [lia|].
  destruct (of_Z_exact a ltac:(lia)) as (pa & Hpa & Ea). rewrite Ea in H.
  destruct (Z.eq_dec b 0) as [->|Hb0]; [discriminate|].
  destruct (of_Z_exact b ltac:(lia)) as (pb & Hpb & Eb). rewrite Eb in H.
  apply leb_finite in H.
  pose proof (Zdigits2_le_53 a ltac:(lia)). pose proof (Zdigits2_le_53 b ltac:(lia)).
  destruct H as [Hlt|[He Hm]].
  - pose proof (Zdigits2_bounds a ltac:(lia)) as [_ Hua].
    pose proof (pow2_le_digits b ltac:(lia)) as Hlb.
    assert (2 ^ Zdigits2 a <= 2 ^ (Zdigits2 b - 1)) by (apply Z.pow_le_mono_r; lia).
    lia.
  - assert (Hd : Zdigits2 a = Zdigits2 b) by lia.
    rewrite Hpa, Hpb, Hd in Hm.
    pose proof (Z.pow_pos_nonneg 2 (53 - Zdigits2 b) ltac:(lia) ltac:(lia)). nia.
Qed.

Lemma not_nan_map_of_N ts : not_nan (map of_N ts).
Proof.
  induction ts as [|t ts IH]; constructor; [|exact IH].
  apply nonneg_not_nan. apply of_N_nonneg.
Qed.

(** X8. A blue box fed with tokens returns exact integer scores: after
    absorbing the tokens [ts], whose smallest is [lo] and whose largest is
    [hi], the score is Cantor's pairing of [lo] and [hi] as an integer,
    provided [(lo + hi) * (lo + hi + 1) < 2^53]. *)
Theorem blue_score_exact (w0 : double) (ts : list N) (lo hi : N) :
  In lo ts -> In hi ts -> (forall t, In t ts -> (lo <= t <= hi)%N) ->
  (Z.of_N lo + Z.of_N hi) * (Z.of_N lo + Z.of_N hi + 1) < 2 ^ 53 ->
  exists ss b,
    blue_run (makeBlueBox w0) (map of_N ts) = Some (ss, b) /\
    last ss = Some (of_Z (cantor (Z.of_N lo) (Z.of_N hi))).
Proof.
  intros Hlo Hhi Hall Hlt.
  assert (Hhi53 : Z.of_N hi < 2 ^ 53) by nia.
  assert (Hb : forall t, In t ts -> 0 <= Z.of_N t < 2 ^ 53).
  { intros t Ht. specialize (Hall t Ht). lia. }
  destruct (blue_run_inv w0 (map of_N ts) (not_nan_map_of_N ts))
    as (ss & b & Hrun & _ & [[E _]|(lo' & hi' & _ & _ & [Hi1 Hl1] & [Hi2 Hl2] & Hs)]).
  { destruct ts; [destruct Hlo|discriminate]. }
  exists ss, b. split; [exact Hrun|]. rewrite Hs. f_equal.
  apply in_map_iff in Hi1. destruct Hi1 as (t1 & <- & Ht1).
  apply in_map_iff in Hi2. destruct Hi2 as (t2 & <- & Ht2).
  assert (t1 = lo) as ->.
  { pose proof (Hl1 (of_N lo) (in_map of_N ts lo Hlo)) as H.
    apply of_Z_le_reflect in H; [|apply Hb; assumption..].
    specialize (Hall t1 Ht1). lia. }
  assert (t2 = hi) as ->.
  { pose proof (Hl2 (of_N hi) (in_map of_N ts hi Hhi)) as H.
    apply of_Z_le_reflect in H; [|apply Hb; assumption..].
    specialize (Hall t2 Ht2). lia. }
  apply pairing_int; lia.
Qed.

Lemma blue_score_exact_witness :
  exists ss b,
    blue_run (makeBlueBox d0_2) (map of_N [3; 1; 2]%N) = Some (ss, b) /\
    last ss = Some (of_Z (cantor 1 3)).
Proof.
  refine (blue_score_exact d0_2 [3; 1; 2]%N 1 3 _ _ _ _).
  - right. left. reflexivity.
  - left. reflexivity.
  - intros t [<-|[<-|[<-|[]]]]; split; discriminate.
  - reflexivity.
Defined.

Lemma fold_add_int zs acc :
  0 <= acc -> Forall (fun z => 0 <= z) zs -> acc + sumZ zs < 2 ^ 53 ->
  fold_left add (map of_Z zs) (of_Z acc) = of_Z (acc + sumZ zs).
Proof.
  revert acc. induction zs as [|z zs IH]; intros acc Hacc Hall Hlt; simpl in *.
  - rewrite Z.add_0_r. reflexivity.
  - apply Forall_cons in Hall. destruct Hall as [Hz Hall].
    assert (0 <= sumZ zs).
    { clear -Hall. induction Hall; simpl; lia. }
    rewrite add_int by lia. rewrite IH; [|lia|exact Hall|lia]. f_equal. lia.
Qed.

Lemma sumZ_nonneg zs : Forall (fun z => 0 <= z) zs -> 0 <= sumZ zs.
Proof. intros H. induction H; simpl; lia. Qed.

Lemma green_window_nonempty b w : absorbed_weights_ (calculateScoreForGreenBox b w).2 <> [].
Proof.
  unfold calculateScoreForGreenBox. cbn [snd absorbed_weights_].
  destruct (Nat.ltb_spec 3 (length (absorbed_weights_ b ++ [w]))) as [H|H].
  - destruct (absorbed_weights_ b ++ [w]) as [|x [|y l]]; simpl in *; try lia. discriminate.
  - destruct (absorbed_weights_ b); discriminate.
Qed.

(** X9. A green box returns exact integer scores when the mean of its
    window is an integer: if the window after the absorption holds the
    integers [zs] with [sum zs = m * length zs], and [sum zs] and [m * m] are
    below [2^53], the score is [m * m] without any rounding. *)
Theorem green_score_exact (b : Box) (w : double) (zs : list Z) (m : Z) :
  absorbed_weights_ (calculateScoreForGreenBox b w).2 = map of_Z zs ->
  Forall (fun z => 0 <= z) zs ->
  sumZ zs = m * Z.of_nat (length zs) ->
  sumZ zs < 2 ^ 53 -> m * m < 2 ^ 53 -> Z.of_nat (length zs) < 2 ^ 53 ->
  (calculateScoreForGreenBox b w).1 = of_Z (m * m).
Proof.
  intros Hw Hall Hsum Hlt Hmm Hn.
  pose proof (green_window_nonempty b w) as Hne. rewrite Hw in Hne.
  assert (Hlen : 0 < Z.of_nat (length zs)) by (destruct zs; [exfalso; apply Hne; reflexivity|simpl; lia]).
  pose proof (sumZ_nonneg zs Hall) as Hs0.
  assert (Hm : 0 <= m) by nia.
  rewrite green_score_window, Hw. unfold square_of_mean, accumulate.
  change zero with (of_Z 0). rewrite fold_add_int; [|lia|exact Hall|lia].
  rewrite length_map. unfold of_nat. rewrite Z.add_0_l, Hsum.
  rewrite div_int by lia. apply std_pow2_int; nia.
Qed.

Lemma green_run_weight b ws :
  weight_ (green_run b ws).2 = fold_left add ws (weight_ b).
Proof.
  revert b. induction ws as [|w ws IH]; intros b; [reflexivity|].
  rewrite green_run_cons. cbn [snd]. rewrite IH. reflexivity.
Qed.

Lemma blue_score_inv b w s b' :
  calculateScoreForBlueBox b w = Some (s, b') ->
  blue_update (absorbed_weights_ b) w = Some (absorbed_weights_ b') /\
  weight_ b' = add (weight_ b) w.
Proof.
  unfold calculateScoreForBlueBox. intros H.
  destruct (blue_update _ _) as [aw|]; [|discriminate].
  destruct (front aw); [|discriminate]. destruct (back aw); [|discriminate].
  injection H as _ <-. split; reflexivity.
Qed.

Lemma blue_run_weight b ws :
  exists ss b', blue_run b ws = Some (ss, b') /\
                weight_ b' = fold_left add ws (weight_ b).
Proof.
  revert b. induction ws as [|w ws IH]; intros b.
  - exists [], b. split; reflexivity.
  - destruct (blue_never_undefined_aux b w) as (s & b1 & Hs).
    destruct (IH b1) as (ss & b' & Hrun & Hw).
    rewrite blue_run_cons, Hs, Hrun. eexists _, _. split; [reflexivity|].
    rewrite Hw. simpl. apply blue_score_inv in Hs. destruct Hs as [_ ->]. reflexivity.
Qed.

(** X10. The weight of a box is the running sum of what it absorbed, with
    either scoring and whatever the history does: a box created with the
    integer weight [z0] that absorbs the integers [zs] weighs exactly
    [z0 + sum zs] as long as that stays below [2^53]. *)
Theorem box_weight_exact (z0 : Z) (zs : list Z) :
  0 <= z0 -> Forall (fun z => 0 <= z) zs -> z0 + sumZ zs < 2 ^ 53 ->
  getWeight (green_run (makeGreenBox (of_Z z0)) (map of_Z zs)).2 = of_Z (z0 + sumZ zs) /\
  exists ss b,
    blue_run (makeBlueBox (of_Z z0)) (map of_Z zs) = Some (ss, b) /\
    getWeight b = of_Z (z0 + sumZ zs).
Proof.
  intros Hz Hall Hlt. unfold getWeight. split.
  - rewrite green_run_weight. apply fold_add_int; assumption.
  - destruct (blue_run_weight (makeBlueBox (of_Z z0)) (map of_Z zs)) as (ss & b & Hrun & Hw).
    exists ss, b. split; [exact Hrun|]. rewrite Hw. apply fold_add_int; assumption.
Qed.

Lemma green_window_bound b w :
  (length (absorbed_weights_ b) <= 3)%nat ->
  (length (absorbed_weights_ (calculateScoreForGreenBox b w).2) <= 3)%nat.
Proof.
  intros H. unfold calculateScoreForGreenBox. cbn [snd absorbed_weights_].
  assert (Hl : length (absorbed_weights_ b ++ [w]) = S (length (absorbed_weights_ b))).
  { rewrite length_app. simpl. lia. }
  destruct (Nat.ltb_spec 3 (length (absorbed_weights_ b ++ [w]))) as [H3|H3]; [|lia].
  destruct (absorbed_weights_ b ++ [w]); simpl in *; lia.
Qed.

Lemma turn_shape i w g :
  Game_shape (boxes g) -> exists g', turn i w g = Some g' /\ Game_shape (boxes g').
Proof.
  intros [Hlen Hshape].
  assert (Hne : boxes g <> []) by (intros E; rewrite E in Hlen; discriminate).
  assert (Hstep : forall p, exists p' bs',
             takeTurn p w (boxes g) = Some (p', bs') /\ Game_shape bs').
  { intros p.
    destruct (takeTurn_cases p w (boxes g) Hne) as (b & Hb & [(Hi & ->)|(Hi & s & b' & Hs & ->)]).
    - eexists _, _. split; [reflexivity|]. split; [rewrite length_insert; exact Hlen|].
      intros j bj Hj. apply list_lookup_insert_Some in Hj.
      destruct Hj as [(<- & <- & _)|[_ Hj]]; [|apply (Hshape j bj Hj)].
      split; [|lia]. intros _. apply green_window_bound.
      apply (Hshape _ _ Hb). exact Hi.
    - eexists _, _. split; [reflexivity|]. split; [rewrite length_insert; exact Hlen|].
      intros j bj Hj. apply list_lookup_insert_Some in Hj.
      destruct Hj as [(<- & <- & _)|[_ Hj]]; [|apply (Hshape j bj Hj)].
      split; [lia|]. intros _.
      apply blue_score_inv in Hs. destruct Hs as [Hup _].
      eapply blue_update_increasing; [|exact Hup].
      apply (Hshape _ _ Hb). exact Hi. }
  unfold turn. destruct (i mod 2 =? 0)%nat.
  - destruct (Hstep (player_A g)) as (p' & bs' & -> & Hs). eexists. split; [reflexivity|exact Hs].
  - destruct (Hstep (player_B g)) as (p' & bs' & -> & Hs). eexists. split; [reflexivity|exact Hs].
Qed.

Lemma play_loop_shape ws i g :
  Game_shape (boxes g) ->
  exists g', play_loop i ws g = Some g' /\ Game_shape (boxes g').
Proof.
  revert i g. induction ws as [|w ws IH]; intros i g Hg; simpl.
  - exists g. auto.
  - destruct (turn_shape i w g Hg) as (g1 & -> & Hg1). apply IH. exact Hg1.
Qed.

Lemma initial_shape : Game_shape (boxes initial).
Proof.
  split; [reflexivity|].
  intros i b Hb. destruct i as [|[|[|[|i]]]]; try discriminate;
    injection Hb as <-; (split; intros _; [simpl; lia|constructor]).
Qed.

(** X11. In every state that [play] reaches there are four boxes, the
    windows of boxes 0 and 1 hold at most three weights, and the buffers of
    boxes 2 and 3 are strictly increasing from front to back. *)
Theorem play_shape (ws : list N) :
  exists g, play_loop 0 ws initial = Some g /\ Game_shape (boxes g).
Proof. apply play_loop_shape. exact initial_shape. Qed.

Lemma turn_effect i w g :
  boxes g <> [] ->
  exists g' b b',
    turn i w g = Some g' /\
    boxes g !! min_element (boxes g) = Some b /\
    boxes g' = <[min_element (boxes g) := b']> (boxes g) /\
    weight_ b' = add (weight_ b) (of_N w) /\
    ((i mod 2 = 0)%nat -> player_B g' = player_B g) /\
    ((i mod 2 <> 0)%nat -> player_A g' = player_A g).
Proof.
  intros Hne.
  assert (Hstep : forall p, exists p' b b',
             takeTurn p w (boxes g) = Some (p', <[min_element (boxes g) := b']> (boxes g)) /\
             boxes g !! min_element (boxes g) = Some b /\
             weight_ b' = add (weight_ b) (of_N w)).
  { intros p.
    destruct (takeTurn_cases p w (boxes g) Hne) as (b & Hb & [(_ & ->)|(_ & s & b' & Hs & ->)]).
    - eexists _, b, _. split; [reflexivity|]. split; [exact Hb|reflexivity].
    - eexists _, b, b'. split; [reflexivity|]. split; [exact Hb|].
      apply blue_score_inv in Hs. apply Hs. }
  unfold turn. destruct (Nat.eqb_spec (i mod 2) 0) as [Hpar|Hpar].
  - destruct (Hstep (player_A g)) as (p' & b & b' & -> & Hb & Hw).
    eexists _, b, b'. split; [reflexivity|]. simpl. repeat split; auto. contradiction.
  - destruct (Hstep (player_B g)) as (p' & b & b' & -> & Hb & Hw).
    eexists _, b, b'. split; [reflexivity|]. simpl. repeat split; auto. contradiction.
Qed.

(** X13. Every token is used on one turn, by one player, on one box: the
    turn at an even position of the input leaves player B as it was, the
    turn at an odd position leaves player A as it was, and the boxes after
    the turn are the boxes before it with the selected box replaced by one
    that weighs the token more. *)
Theorem turns_alternate (ws : list N) (k : nat) (w : N) :
  ws !! k = Some w ->
  exists g g' b b',
    play_loop 0 (take k ws) initial = Some g /\
    play_loop 0 (take (S k) ws) initial = Some g' /\
    ((k mod 2 = 0)%nat -> player_B g' = player_B g) /\
    ((k mod 2 <> 0)%nat -> player_A g' = player_A g) /\
    boxes g !! min_element (boxes g) = Some b /\
    boxes g' = <[min_element (boxes g) := b']> (boxes g) /\
    weight_ b' = add (weight_ b) (of_N w).
Proof.
  intros Hw. pose proof (lookup_lt_Some _ _ _ Hw) as Hk.
  destruct (play_loop_shape (take k ws) 0 initial initial_shape) as (g & Hrun & Hlen & _).
  assert (Hne : boxes g <> []) by (intros E; rewrite E in Hlen; discriminate).
  destruct (turn_effect k w g Hne) as (g' & b & b' & Hturn & Hb & Hbs & Hwt & HB & HA).
  exists g, g', b, b'. split; [exact Hrun|]. split; [|auto].
  rewrite (take_S_r _ _ _ Hw), play_loop_snoc, Hrun, length_take.
  replace (0 + Nat.min k (length ws))%nat with k by lia. exact Hturn.
Qed.

(** X14. Absorbing the same weight twice in a row into a box with a strictly
    increasing buffer: the second absorption leaves the buffer as the first
    one left it and returns the same score. *)
Theorem blue_absorb_twice (b b1 : Box) (w s : double) :
  increasing (absorbed_weights_ b) ->
  calculateScoreForBlueBox b w = Some (s, b1) ->
  exists b2, calculateScoreForBlueBox b1 w = Some (s, b2) /\
             absorbed_weights_ b2 = absorbed_weights_ b1.
Proof.
  intros Hs Hcalc.
  destruct (blue_never_undefined_aux b1 w) as (s2 & b2 & Hcalc2).
  pose proof (blue_score_inv _ _ _ _ Hcalc) as [Hup _].
  pose proof (blue_score_inv _ _ _ _ Hcalc2) as [Hup2 _].
  assert (Hsame : blue_update (absorbed_weights_ b1) w = Some (absorbed_weights_ b1)).
  { destruct (blue_update_increasing _ _ _ Hs Hup) as (Hs1 & _ & _ & Hne1).
    destruct (blue_update_cases (absorbed_weights_ b1) w)
      as [[E _]|(f1 & l1 & Hf1 & Hb1 & E1)]; [contradiction|].
    rewrite E1.
    assert (Hbelow : Forall (fun x => x = l1 \/ ltb x l1 = true) (absorbed_weights_ b1))
      by (apply increasing_below_last; assumption).
    assert (Hfl : f1 = l1 \/ ltb f1 l1 = true).
    { rewrite Forall_forall in Hbelow. apply Hbelow. apply list_elem_of_In.
      apply front_In. exact Hf1. }
    destruct (blue_update_cases (absorbed_weights_ b) w)
      as [[E Eup]|(f & l & Hf & Hb & Eup)]; rewrite Eup in Hup; injection Hup as Hup.
    - rewrite <- Hup in Hf1, Hb1. injection Hf1 as <-. injection Hb1 as <-.
      rewrite ltb_irrefl. reflexivity.
    - destruct (ltb w f) eqn:C1; [|destruct (ltb l w) eqn:C2].
      + rewrite <- Hup in Hf1. injection Hf1 as <-. rewrite ltb_irrefl.
        assert (ltb l1 w = false) as ->; [|reflexivity].
        destruct Hfl as [<-|Hfl]; [apply ltb_irrefl|apply ltb_asym; exact Hfl].
      + rewrite <- Hup in Hb1. rewrite back_snoc in Hb1. injection Hb1 as <-.
        rewrite <- Hup in Hf1. rewrite (front_snoc _ w f Hf) in Hf1. injection Hf1 as <-.
        rewrite C1, ltb_irrefl. reflexivity.
      + rewrite <- Hup in Hf1, Hb1. rewrite Hf in Hf1. rewrite Hb in Hb1.
        injection Hf1 as <-. injection Hb1 as <-. rewrite C1, C2. reflexivity. }
  rewrite Hsame in Hup2. injection Hup2 as Haw.
  exists b2. split; [|symmetry; exact Haw].
  rewrite Hcalc2. f_equal. f_equal.
  unfold calculateScoreForBlueBox in Hcalc, Hcalc2. rewrite Hup in Hcalc. rewrite Hsame in Hcalc2.
  destruct (front (absorbed_weights_ b1)); [|discriminate].
  destruct (back (absorbed_weights_ b1)); [|discriminate].
  injection Hcalc as <- _. injection Hcalc2 as <- _. reflexivity.
Qed.

Lemma blue_absorb_twice_witness :
  exists b2,
    calculateScoreForBlueBox (mkBox (add d0_2 (of_Z 4)) [of_Z 4]) (of_Z 4)
    = Some (of_Z (cantor 4 4), b2) /\
    absorbed_weights_ b2 = [of_Z 4].
Proof.
  exact (blue_absorb_twice (makeBlueBox d0_2) (mkBox (add d0_2 (of_Z 4)) [of_Z 4])
                           (of_Z 4) (of_Z (cantor 4 4))
                           (SSorted_nil _) eq_refl).
Defined.








(** X15. Scores are never NaN and never negative: for a box that holds
    non-negative weights and a non-negative weight to absorb, the green
    scoring (on a window of at most three weights) and the blue scoring both
    return a double that is not NaN and has its sign bit clear, also when a
    sum or a product overflows to [+inf]. *)
Theorem scores_never_nan (b : Box) (w : double) :
  Box_wf b -> wf w ->
  ((length (absorbed_weights_ b) <= 3)%nat ->
   nonneg (calculateScoreForGreenBox b w).1 = true /\
   is_nan (calculateScoreForGreenBox b w).1 = false) /\
  (exists s b', calculateScoreForBlueBox b w = Some (s, b') /\
                nonneg s = true /\ is_nan s = false).
Proof.
  intros Hb Hw. split.
  - intros Hlen. destruct (green_step_wf b w Hb Hlen Hw) as ([Hn _] & _).
    split; [exact Hn|apply nonneg_not_nan; exact Hn].
  - destruct (blue_step_wf b w Hb Hw) as (s & b' & Hs & [Hn _] & _).
    exists s, b'. split; [exact Hs|]. split; [exact Hn|apply nonneg_not_nan; exact Hn].
Qed.

End Further.

(** ** The scores as numbers *)

Section Numbers.





(** C2 as stated fails.  A blue box that absorbs the tokens [0] and
    [2^27 - 1] returns [9007199321849856] on the second absorption, whereas
    [(lo+hi)*(lo+hi+1)/2 + hi] is [9007199321849855] for [lo = 0] and
    [hi = 2^27 - 1], a number that is no double.  And the score is the same
    double, [9007199456067584], after the tokens [0] and [2^27] as after the
    tokens [1] and [2^27 - 1], whose pairings differ. *)
Lemma blue_score_not_pairing :
  (exists ss b,
     blue_run (makeBlueBox d0_2) (map of_N [0; 134217727]%N) = Some (ss, b) /\
     last ss = Some (of_Z 9007199321849856) /\
     cantor 0 134217727 = 9007199321849855 /\
     value_is (of_Z 9007199321849856) (cantor 0 134217727) 1 = false) /\
  (exists ss1 b1 ss2 b2,
     blue_run (makeBlueBox d0_2) (map of_N [0; 134217728]%N) = Some (ss1, b1) /\
     blue_run (makeBlueBox d0_2) (map of_N [1; 134217727]%N) = Some (ss2, b2) /\
     last ss1 = Some (of_Z 9007199456067584) /\
     last ss2 = Some (of_Z 9007199456067584) /\
     cantor 0 134217728 = 9007199456067584 /\
     cantor 1 134217727 = 9007199456067583).
Proof.
  split.
  - eexists _, _. split; [vm_compute; reflexivity|]. repeat split.
  - eexists _, _, _, _. split; [vm_compute; reflexivity|].
    split; [vm_compute; reflexivity|]. repeat split.
Qed.

(** C2, amended.  Blue-box scoring: whatever weights (none of them NaN) a
    blue box absorbs, the score returned on the [k]-th absorption is
    [(lo+hi)*(lo+hi+1)/2 + hi] evaluated in double arithmetic on a smallest
    weight [lo] and a largest weight [hi] among the first [k].  It is Cantor's
    pairing of [lo] and [hi] without any rounding when the weights are not
    negative, [lo] and [hi] are integers and [(lo+hi)*(lo+hi+1) < 2^53]; in
    particular the pairing of 0 and 1 is 2.  A weight strictly between the
    smallest and the largest so far gives the score of the absorption before
    it. *)
Theorem blue_box_scoring (w0 : double) (ws : list double) :
  not_nan ws ->
  exists ss b,
    blue_run (makeBlueBox w0) ws = Some (ss, b) /\
    (forall k, (1 <= k <= length ws)%nat ->
       exists lo hi, is_min lo (take k ws) /\ is_max hi (take k ws) /\
         ss !! (k - 1)%nat
         = Some (add (div (mul (add lo hi) (add (add lo hi) (of_Z 1))) (of_Z 2)) hi)) /\
    (forall k (lo hi : Z), (1 <= k <= length ws)%nat ->
       Forall (fun x => nonneg x = true) (take k ws) ->
       is_min (of_Z lo) (take k ws) -> is_max (of_Z hi) (take k ws) ->
       0 <= lo -> 0 <= hi -> (lo + hi) * (lo + hi + 1) < 2 ^ 53 ->
       ss !! (k - 1)%nat = Some (of_Z (cantor lo hi))) /\
    (forall k lo hi w, (1 <= k)%nat -> ws !! k = Some w ->
       is_min lo (take k ws) -> is_max hi (take k ws) ->
       ltb lo w = true -> ltb w hi = true ->
       ss !! k = ss !! (k - 1)%nat) /\
    add (div (mul (add (of_Z 0) (of_Z 1)) (add (add (of_Z 0) (of_Z 1)) (of_Z 1))) (of_Z 2))
        (of_Z 1) = of_Z 2.
Proof.
  intros Hnn. destruct (blue_run_inv w0 ws Hnn) as (ss & b & Hrun & Hlen & _).
  exists ss, b. split; [exact Hrun|]. split; [|split; [|split]].
  - intros k Hk.
    destruct (blue_run_kth w0 ws ss b k Hnn Hrun Hk)
      as (bk & lo & hi & _ & _ & _ & Hlo & Hhi & Hs).
    exists lo, hi. auto.
  - intros k lo hi Hk Hpos [Hlo1 Hlo2] [Hhi1 Hhi2] H0 H1 Hlt.
    destruct (blue_run_kth w0 ws ss b k Hnn Hrun Hk)
      as (bk & lo' & hi' & _ & _ & _ & [Hlo1' Hlo2'] & [Hhi1' Hhi2'] & ->).
    assert (Elo : lo' = of_Z lo).
    { apply leb_antisym; [|apply of_Z_nonneg; exact H0|apply Hlo2'; exact Hlo1|apply Hlo2; exact Hlo1'].
      apply (Forall_In (fun x => nonneg x = true) _ _ Hpos Hlo1'). }
    assert (Ehi : hi' = of_Z hi).
    { apply leb_antisym; [|apply of_Z_nonneg; exact H1|apply Hhi2; exact Hhi1'|apply Hhi2'; exact Hhi1].
      apply (Forall_In (fun x => nonneg x = true) _ _ Hpos Hhi1'). }
    rewrite Elo, Ehi. f_equal. apply pairing_int; assumption.
  - intros k lo hi w Hk Hw Hlo Hhi H1 H2.
    eapply blue_run_between; eassumption.
  - vm_compute. reflexivity.
Qed.

Lemma blue_box_scoring_witness :
  not_nan [of_Z 3; of_Z 1; of_Z 2] /\
  exists ss b,
    blue_run (makeBlueBox zero) [of_Z 3; of_Z 1; of_Z 2] = Some (ss, b) /\
    (forall k (lo hi : Z), (1 <= k <= length [of_Z 3; of_Z 1; of_Z 2])%nat ->
       Forall (fun x => nonneg x = true) (take k [of_Z 3; of_Z 1; of_Z 2]) ->
       is_min (of_Z lo) (take k [of_Z 3; of_Z 1; of_Z 2]) ->
       is_max (of_Z hi) (take k [of_Z 3; of_Z 1; of_Z 2]) ->
       0 <= lo -> 0 <= hi -> (lo + hi) * (lo + hi + 1) < 2 ^ 53 ->
       ss !! (k - 1)%nat = Some (of_Z (cantor lo hi))).
Proof.
  assert (H : not_nan [of_Z 3; of_Z 1; of_Z 2]).
  { repeat constructor. }
  split; [exact H|].
  destruct (blue_box_scoring zero [of_Z 3; of_Z 1; of_Z 2] H) as (ss & b & H1 & _ & H2 & _).
  exists ss, b. split; [exact H1|exact H2].
Defined.

End Numbers.

End Model.

(** ** Runs on which every square is a double *)

Section Agreement.

Variables pw1 pw2 : double -> double.

Lemma takeTurn_agree p w bs :
  (forall x, turn_mean w bs = Some x -> pw1 x = pw2 x) ->
  takeTurn pw1 p w bs = takeTurn pw2 p w bs.
Proof.
  intros H. unfold takeTurn, turn_mean in *.
  destruct (bs !! min_element bs) as [b|]; [|reflexivity].
  destruct ((min_element bs =? 0)%nat || (min_element bs =? 1)%nat); [|reflexivity].
  change (calculateScoreForGreenBox pw1 b (of_N w))
    with (pw1 (green_mean b (of_N w)), (calculateScoreForGreenBox pw2 b (of_N w)).2).
  change (calculateScoreForGreenBox pw2 b (of_N w))
    with (pw2 (green_mean b (of_N w)), (calculateScoreForGreenBox pw2 b (of_N w)).2).
  rewrite (H _ eq_refl). reflexivity.
Qed.

Lemma turn_agree i w g :
  (forall x, turn_mean w (boxes g) = Some x -> pw1 x = pw2 x) ->
  turn pw1 i w g = turn pw2 i w g.
Proof.
  intros H. unfold turn.
  rewrite (takeTurn_agree (player_A g) w (boxes g) H).
  rewrite (takeTurn_agree (player_B g) w (boxes g) H). reflexivity.
Qed.

(** Two implementations of [std::pow] that agree where the square is a
    double give the same game on an input that asks for such squares only. *)
Lemma play_loop_agree i ws g :
  (forall x, square_exact x = true -> pw1 x = pw2 x) ->
  exact_run pw2 i ws g = true ->
  play_loop pw1 i ws g = play_loop pw2 i ws g.
Proof.
  intros H. revert i g. induction ws as [|w ws IH]; intros i g Hex; [reflexivity|].
  cbn [exact_run] in Hex. apply andb_true_iff in Hex. destruct Hex as [H1 H2].
  cbn [play_loop]. rewrite (turn_agree i w g).
  - destruct (turn pw2 i w g) as [g'|]; [apply IH; exact H2|reflexivity].
  - intros x Hx. rewrite Hx in H1. apply H. exact H1.
Qed.

End Agreement.

(** ** The results at the correctly rounded square *)

Section Instances.

(** The green scoring on a small input. *)
Example green_run_example :
  (green_run rounded_square (makeGreenBox zero) [of_Z 1; of_Z 2; of_Z 3; of_Z 4]).1
  = [of_Z 1; div (of_Z 9) (of_Z 4); of_Z 4; of_Z 9].
Proof. vm_compute. reflexivity. Qed.



(** C3. End to end: [play] on the first eight Fibonacci numbers returns the
    scores [155.0] for player A and [366.25] for player B.  Every square that
    this game asks for is a double, so the result is the same for every
    [std::pow] that returns such squares. *)
Theorem play_fibonacci8 (std_pow2 : double -> double) :
  (forall x, square_exact x = true -> std_pow2 x = mul x x) ->
  play std_pow2 [1; 1; 2; 3; 5; 8; 13; 21]%N = Some (d155, d366_25).
Proof.
  intros H. unfold play.
  rewrite (play_loop_agree std_pow2 rounded_square 0 _ initial H)
    by (vm_compute; reflexivity).
  vm_compute. reflexivity.
Qed.

Lemma play_fibonacci8_witness :
  play rounded_square [1; 1; 2; 3; 5; 8; 13; 21]%N = Some (d155, d366_25).
Proof. exact (play_fibonacci8 rounded_square rounded_square_exact). Defined.

(** C4. End to end: [play] on the first four Fibonacci numbers returns the
    scores [13.0] for player A and [25.0] for player B, for every [std::pow]
    that returns the squares that are doubles. *)
Theorem play_fibonacci4 (std_pow2 : double -> double) :
  (forall x, square_exact x = true -> std_pow2 x = mul x x) ->
  play std_pow2 [1; 1; 2; 3]%N = Some (d13, d25).
Proof.
  intros H. unfold play.
  rewrite (play_loop_agree std_pow2 rounded_square 0 _ initial H)
    by (vm_compute; reflexivity).
  vm_compute. reflexivity.
Qed.

Lemma play_fibonacci4_witness :
  play rounded_square [1; 1; 2; 3]%N = Some (d13, d25).
Proof. exact (play_fibonacci4 rounded_square rounded_square_exact). Defined.

(** C6 as stated fails: absorbing the token [0] leaves the weight of a box
    as it was, with the green and with the blue scoring, so the weight does
    not strictly increase, and on the inputs [0; 0] both turns select box 0.
    A weight of [2^53] is unchanged by the token [1].  With positive tokens
    the selection can repeat as well: on [100; 100; 100; 1; 1] the fourth and
    the fifth turn both select box 3.  The weights do not depend on what
    [std::pow] returns ([strict_growth_fails]). *)
Lemma strict_growth_counterexample :
  weight_ (calculateScoreForGreenBox rounded_square (makeGreenBox zero) (of_N 0)).2
    = weight_ (makeGreenBox zero) /\
  ltb (weight_ (makeGreenBox zero))
      (weight_ (calculateScoreForGreenBox rounded_square (makeGreenBox zero) (of_N 0)).2)
    = false /\
  (exists s b', calculateScoreForBlueBox (makeBlueBox d0_2) (of_N 0) = Some (s, b') /\
                ltb (weight_ (makeBlueBox d0_2)) (weight_ b') = false) /\
  (exists g, play_loop rounded_square 0 [0%N] initial = Some g /\
             min_element (boxes initial) = 0%nat /\ min_element (boxes g) = 0%nat) /\
  ltb (weight_ (makeGreenBox (of_Z (2 ^ 53))))
      (weight_ (calculateScoreForGreenBox rounded_square (makeGreenBox (of_Z (2 ^ 53)))
                                          (of_N 1)).2) = false /\
  (exists g3 g4, play_loop rounded_square 0 [100; 100; 100]%N initial = Some g3 /\
                 play_loop rounded_square 0 [100; 100; 100; 1]%N initial = Some g4 /\
                 min_element (boxes g3) = 3%nat /\ min_element (boxes g4) = 3%nat).
Proof. exact (strict_growth_fails rounded_square). Qed.

Lemma absorption_adds_token_witness :
  wf (weight_ (makeGreenBox d0_1)) /\
  (1 <= 5 < 2 ^ 32)%N /\
  ltb (weight_ (makeGreenBox d0_1)) (of_Z (2 ^ 53)) = true /\
  ltb (weight_ (makeGreenBox d0_1)) (add (weight_ (makeGreenBox d0_1)) (of_N 5)) = true.
Proof.
  assert (H1 : wf (weight_ (makeGreenBox d0_1))) by (split; reflexivity).
  assert (H2 : (1 <= 5 < 2 ^ 32)%N) by (split; [discriminate|reflexivity]).
  assert (H3 : ltb (weight_ (makeGreenBox d0_1)) (of_Z (2 ^ 53)) = true) by reflexivity.
  split; [exact H1|]. split; [exact H2|]. split; [exact H3|].
  exact (proj2 (proj2 (proj2 (proj2
           (absorption_adds_token rounded_square (makeGreenBox d0_1) 5 H1)))) H2 H3).
Defined.

Lemma score_monotone_witness :
  [1; 1; 2; 3]%N !! 2%nat = Some 2%N /\
  exists g g' inc,
    play_loop rounded_square 0 (take 2 [1; 1; 2; 3]%N) initial = Some g /\
    play_loop rounded_square 0 (take 3 [1; 1; 2; 3]%N) initial = Some g' /\
    turn rounded_square 2 2 g = Some g' /\
    leb zero inc = true /\
    (score_ (player_A g') = add (score_ (player_A g)) inc /\ player_B g' = player_B g \/
     score_ (player_B g') = add (score_ (player_B g)) inc /\ player_A g' = player_A g) /\
    leb (score_ (player_A g)) (score_ (player_A g')) = true /\
    leb (score_ (player_B g)) (score_ (player_B g')) = true.
Proof.
  split; [reflexivity|].
  exact (proj2 (proj2 (score_monotone rounded_square rounded_square_sign [1; 1; 2; 3]%N))
               2%nat 2%N eq_refl).
Defined.

Lemma takeTurn_defined_witness :
  [makeGreenBox d0_1; makeBlueBox zero] <> [] /\
  exists p' bs' b b',
    takeTurn rounded_square Player_new 7 [makeGreenBox d0_1; makeBlueBox zero]
      = Some (p', bs') /\
    length bs' = length [makeGreenBox d0_1; makeBlueBox zero] /\
    (forall j, j <> min_element [makeGreenBox d0_1; makeBlueBox zero] ->
               bs' !! j = [makeGreenBox d0_1; makeBlueBox zero] !! j) /\
    [makeGreenBox d0_1; makeBlueBox zero]
      !! min_element [makeGreenBox d0_1; makeBlueBox zero] = Some b /\
    bs' !! min_element [makeGreenBox d0_1; makeBlueBox zero] = Some b' /\
    weight_ b' = add (weight_ b) (of_N 7).
Proof.
  assert (H : [makeGreenBox d0_1; makeBlueBox zero] <> []) by discriminate.
  split; [exact H|].
  exact (proj2 (takeTurn_defined rounded_square Player_new 7
                                 [makeGreenBox d0_1; makeBlueBox zero]) H).
Defined.

Lemma green_score_exact_witness :
  (calculateScoreForGreenBox rounded_square (mkBox zero [of_Z 1; of_Z 2; of_Z 4]) (of_Z 9)).1
  = of_Z 25.
Proof.
  refine (green_score_exact rounded_square rounded_square_exact
                            (mkBox zero [of_Z 1; of_Z 2; of_Z 4]) (of_Z 9) [2; 4; 9] 5
                            eq_refl _ eq_refl eq_refl eq_refl eq_refl).
  repeat constructor; discriminate.
Defined.

Lemma box_weight_exact_witness :
  getWeight (green_run rounded_square (makeGreenBox (of_Z 0)) (map of_Z [5; 8; 13])).2
    = of_Z (0 + sumZ [5; 8; 13]) /\
  exists ss b,
    blue_run (makeBlueBox (of_Z 0)) (map of_Z [5; 8; 13]) = Some (ss, b) /\
    getWeight b = of_Z (0 + sumZ [5; 8; 13]).
Proof.
  refine (box_weight_exact rounded_square 0 [5; 8; 13] _ _ eq_refl).
  - discriminate.
  - repeat constructor; discriminate.
Defined.

Lemma turns_alternate_witness :
  [1; 1; 2; 3]%N !! 1%nat = Some 1%N /\
  exists g g' b b',
    play_loop rounded_square 0 (take 1 [1; 1; 2; 3]%N) initial = Some g /\
    play_loop rounded_square 0 (take 2 [1; 1; 2; 3]%N) initial = Some g' /\
    ((1 mod 2 = 0)%nat -> player_B g' = player_B g) /\
    ((1 mod 2 <> 0)%nat -> player_A g' = player_A g) /\
    boxes g !! min_element (boxes g) = Some b /\
    boxes g' = <[min_element (boxes g) := b']> (boxes g) /\
    weight_ b' = add (weight_ b) (of_N 1).
Proof.
  split; [reflexivity|].
  exact (turns_alternate rounded_square [1; 1; 2; 3]%N 1 1%N eq_refl).
Defined.


Lemma scores_never_nan_witness :
  Box_wf (mkBox d0_3 [of_Z 7]) /\ wf (S754_infinity false) /\
  nonneg (calculateScoreForGreenBox rounded_square (mkBox d0_3 [of_Z 7])
                                    (S754_infinity false)).1 = true /\
  exists s b', calculateScoreForBlueBox (mkBox d0_3 [of_Z 7]) (S754_infinity false) = Some (s, b') /\
               nonneg s = true /\ is_nan s = false.
Proof.
  assert (H1 : Box_wf (mkBox d0_3 [of_Z 7])).
  { split; [split; reflexivity|]. constructor; [split; reflexivity|constructor]. }
  assert (H2 : wf (S754_infinity false)) by (split; reflexivity).
  assert (H3 : (length (absorbed_weights_ (mkBox d0_3 [of_Z 7])) <= 3)%nat) by (simpl; lia).
  split; [exact H1|]. split; [exact H2|].
  split; [exact (proj1 (proj1 (scores_never_nan rounded_square rounded_square_sign
                                                _ _ H1 H2) H3))|].
  exact (proj2 (scores_never_nan rounded_square rounded_square_sign _ _ H1 H2)).
Defined.

End Instances.
